(** * CloudflareSocket: a Duplex stream over the Cloudflare socket capability

    Shallow embedding of [src/pg-cloudflare.ts].  The adapter is a class that
    extends Node's [Duplex]; its methods mutate five private fields, call the
    platform socket, and register continuations on promises.  The embedding
    follows that shape:

    - the object is a record ([CloudflareSocket]) holding the private fields
      and the few inherited [Duplex] flags the methods depend on;
    - a method is a computation in a small state / exception / output monad
      [M]: it reads and writes the object, may throw, and records the calls
      it makes on the platform and the notifications it emits (the calls to
      the source's [log], debug output that is switched off, are left out);
    - a promise continuation ([.then] / [.catch] / the code after [await]) is
      a computation of its own, run when the environment settles the promise;
      promises that are still pending are kept in the [pending] list;
    - an execution is a list of [Input]s (calls from the client library,
      demand from the readable side, promise settlements) run by [step]. *)

From Stdlib Require Import List Bool Arith Lia Ascii String Strings.Byte.
Import ListNotations.
Local Open Scope string_scope.
Local Open Scope list_scope.

(** ** Values *)

(** Platform sockets are objects; an identity is all the adapter uses. *)
Definition SocketId := nat.

(** [socket.readable.getReader()] and [socket.writable.getWriter()]: the
    handle on the stream of one socket. *)
Inductive Reader := ReaderOf (s : SocketId).
Inductive Writer := WriterOf (s : SocketId).

(** Values thrown or used as rejection reasons and error arguments. *)
Inductive JsError :=
| TypeError (what : string)      (* dereferencing a null field behind [!] *)
| PlatformError (code : nat)     (* an error object produced by the platform *)
| Message (text : string)        (* a bare string passed to [emit("error", _)] *)
| StreamError (code : string).   (* an error raised by the Duplex base class *)

Definition Encoding := string.

(** The [data] argument of [write]: a string or a byte buffer. *)
Inductive Data :=
| Str (s : string)
| Buf (b : list byte).

(** [data.length].  Only the test against zero is used; for a string the
    count below is in bytes where JavaScript counts UTF-16 units, and both
    are zero exactly for the empty string. *)
Definition data_length (d : Data) : nat :=
  match d with
  | Str s => String.length s
  | Buf b => List.length b
  end.

(** What is handed to the writer: the buffer itself, or
    [Buffer.from(data, encoding)] for a string. *)
Inductive Payload :=
| Bytes (b : list byte)
| BufferFrom (s : string) (encoding : Encoding).

Inductive SecureTransport := Off | StartTls.

Record TlsOptions := { expectedServerHostname : option string }.

Definition Listener := nat.
Definition Callback := nat.

(** ** Observable actions *)

(** Calls made on the platform socket capability. *)
Inductive PlatformCall :=
| SockConnect (hostname : string) (port : nat) (allowHalfOpen : bool)
              (secureTransport : SecureTransport)
| SockStartTls (s : SocketId) (options : TlsOptions)
| SockClose (s : SocketId)
| GetWriter (s : SocketId)
| GetReader (s : SocketId)
| ReleaseWriter (w : Writer)
| ReleaseReader (r : Reader)
| ReaderRead (r : Reader)
| WriterWrite (w : Writer) (p : Payload).

(** Notifications delivered to the listeners of the stream. *)
Inductive Notification :=
| NConnect
| NError (e : JsError)
| NClose.

Inductive Event :=
| Platform (c : PlatformCall)
| Emit (n : Notification)                      (* this.emit(...) *)
| Push (chunk : option (list byte))            (* this.push(...); None is push(null) *)
| Once (l : Listener)                          (* this.once("connect", l) *)
| Invoke (cb : Callback) (err : option JsError). (* callback(err) *)

(** ** The object *)

Record CloudflareSocket := {
  ssl : bool;
  cfSocket : option SocketId;
  cfReader : option Reader;
  cfWriter : option Writer;
  upgrading : bool;
  upgraded : bool;
  (* state inherited from Duplex *)
  destroyed : bool;        (* destroy() has been called *)
  closed : bool;           (* the destroy callback has run *)
  reading : bool;          (* _read has been called and nothing pushed since *)
  ended : bool;            (* push(null) has been seen *)
  writableEnded : bool     (* end() has been called *)
}.

(** [new CloudflareSocket(ssl)] *)
Definition new (ssl : bool) : CloudflareSocket :=
  {| ssl := ssl; cfSocket := None; cfReader := None; cfWriter := None;
     upgrading := false; upgraded := false;
     destroyed := false; closed := false; reading := false; ended := false;
     writableEnded := false |}.

Definition set_cfSocket v (o : CloudflareSocket) :=
  {| ssl := ssl o; cfSocket := v; cfReader := cfReader o; cfWriter := cfWriter o;
     upgrading := upgrading o; upgraded := upgraded o;
     destroyed := destroyed o; closed := closed o; reading := reading o;
     ended := ended o; writableEnded := writableEnded o |}.
Definition set_cfReader v (o : CloudflareSocket) :=
  {| ssl := ssl o; cfSocket := cfSocket o; cfReader := v; cfWriter := cfWriter o;
     upgrading := upgrading o; upgraded := upgraded o;
     destroyed := destroyed o; closed := closed o; reading := reading o;
     ended := ended o; writableEnded := writableEnded o |}.
Definition set_cfWriter v (o : CloudflareSocket) :=
  {| ssl := ssl o; cfSocket := cfSocket o; cfReader := cfReader o; cfWriter := v;
     upgrading := upgrading o; upgraded := upgraded o;
     destroyed := destroyed o; closed := closed o; reading := reading o;
     ended := ended o; writableEnded := writableEnded o |}.
Definition set_upgrading v (o : CloudflareSocket) :=
  {| ssl := ssl o; cfSocket := cfSocket o; cfReader := cfReader o; cfWriter := cfWriter o;
     upgrading := v; upgraded := upgraded o;
     destroyed := destroyed o; closed := closed o; reading := reading o;
     ended := ended o; writableEnded := writableEnded o |}.
Definition set_upgraded v (o : CloudflareSocket) :=
  {| ssl := ssl o; cfSocket := cfSocket o; cfReader := cfReader o; cfWriter := cfWriter o;
     upgrading := upgrading o; upgraded := v;
     destroyed := destroyed o; closed := closed o; reading := reading o;
     ended := ended o; writableEnded := writableEnded o |}.
Definition set_destroyed v (o : CloudflareSocket) :=
  {| ssl := ssl o; cfSocket := cfSocket o; cfReader := cfReader o; cfWriter := cfWriter o;
     upgrading := upgrading o; upgraded := upgraded o;
     destroyed := v; closed := closed o; reading := reading o;
     ended := ended o; writableEnded := writableEnded o |}.
Definition set_closed v (o : CloudflareSocket) :=
  {| ssl := ssl o; cfSocket := cfSocket o; cfReader := cfReader o; cfWriter := cfWriter o;
     upgrading := upgrading o; upgraded := upgraded o;
     destroyed := destroyed o; closed := v; reading := reading o;
     ended := ended o; writableEnded := writableEnded o |}.
Definition set_reading v (o : CloudflareSocket) :=
  {| ssl := ssl o; cfSocket := cfSocket o; cfReader := cfReader o; cfWriter := cfWriter o;
     upgrading := upgrading o; upgraded := upgraded o;
     destroyed := destroyed o; closed := closed o; reading := v;
     ended := ended o; writableEnded := writableEnded o |}.
Definition set_ended v (o : CloudflareSocket) :=
  {| ssl := ssl o; cfSocket := cfSocket o; cfReader := cfReader o; cfWriter := cfWriter o;
     upgrading := upgrading o; upgraded := upgraded o;
     destroyed := destroyed o; closed := closed o; reading := reading o;
     ended := v; writableEnded := writableEnded o |}.
Definition set_writableEnded v (o : CloudflareSocket) :=
  {| ssl := ssl o; cfSocket := cfSocket o; cfReader := cfReader o; cfWriter := cfWriter o;
     upgrading := upgrading o; upgraded := upgraded o;
     destroyed := destroyed o; closed := closed o; reading := reading o;
     ended := ended o; writableEnded := v |}.

(** ** Pending promises *)

(** A promise the object has attached a continuation to and that has not
    settled yet.  The constructor records which continuation it is and the
    values the continuation closes over. *)
Inductive Pending :=
| POpened (s : SocketId)                          (* await this.#cfSocket.opened *)
| PClosed (s : SocketId)                          (* this.#cfSocket.closed.then(...) *)
| PRead (r : Reader)                              (* this.#cfReader.read().then(...) *)
| PWrite (w : Writer) (callback : option Callback) (* this.#cfWriter.write(data).then(...) *)
| PClose (s : SocketId) (error : option JsError). (* this.#cfSocket.close().then(...) *)

(** How the environment settles a promise. *)
Inductive ReadResult :=
| Chunk (value : list byte)      (* { done: false, value } *)
| Done.                          (* { done: true } *)

Inductive Settlement (A : Type) :=
| Fulfilled (value : A)
| Rejected (e : JsError).
Arguments Fulfilled {A} value.
Arguments Rejected {A} e.

Record World := {
  self : CloudflareSocket;
  pending : list Pending;
  fresh : SocketId           (* identity of the next socket the platform creates *)
}.

(** ** The monad *)

Inductive Completion (A : Type) :=
| Normal (a : A)
| Thrown (e : JsError).
Arguments Normal {A} a.
Arguments Thrown {A} e.

Record Result (A : Type) := {
  completion : Completion A;
  world : World;
  events : list Event
}.
Arguments completion {A} r.
Arguments world {A} r.
Arguments events {A} r.

Definition M (A : Type) := World -> Result A.

Definition ret {A} (a : A) : M A :=
  fun w => {| completion := Normal a; world := w; events := [] |}.

Definition bind {A B} (m : M A) (f : A -> M B) : M B :=
  fun w =>
    let r := m w in
    match completion r with
    | Normal a =>
        let r' := f a (world r) in
        {| completion := completion r'; world := world r';
           events := events r ++ events r' |}
    | Thrown e =>
        {| completion := Thrown e; world := world r; events := events r |}
    end.

Definition throw {A} (e : JsError) : M A :=
  fun w => {| completion := Thrown e; world := w; events := [] |}.

(** [try { body } catch (e) { handler(e) }] *)
Definition try_catch {A} (body : M A) (handler : JsError -> M A) : M A :=
  fun w =>
    let r := body w in
    match completion r with
    | Normal a => r
    | Thrown e =>
        let r' := handler e (world r) in
        {| completion := completion r'; world := world r';
           events := events r ++ events r' |}
    end.

Declare Scope js_scope.
Delimit Scope js_scope with js.
Notation "x <- m ;; k" := (bind m (fun x => k))
  (at level 61, m at next level, right associativity) : js_scope.
Notation "m ;; k" := (bind m (fun _ => k))
  (at level 61, right associativity) : js_scope.
Local Open Scope js_scope.

Definition this : M CloudflareSocket :=
  fun w => {| completion := Normal (self w); world := w; events := [] |}.

Definition update (f : CloudflareSocket -> CloudflareSocket) : M unit :=
  fun w =>
    {| completion := Normal tt;
       world := {| self := f (self w); pending := pending w; fresh := fresh w |};
       events := [] |}.

Definition observe (e : Event) : M unit :=
  fun w => {| completion := Normal tt; world := w; events := [e] |}.

Definition emit (n : Notification) : M unit := observe (Emit n).
Definition platform (c : PlatformCall) : M unit := observe (Platform c).

(** Attach a continuation to a promise: it is pending from now on. *)
Definition await (p : Pending) : M unit :=
  fun w =>
    {| completion := Normal tt;
       world := {| self := self w; pending := pending w ++ [p]; fresh := fresh w |};
       events := [] |}.

(** The platform hands out a socket object it has just created. *)
Definition new_socket : M SocketId :=
  fun w =>
    {| completion := Normal (fresh w);
       world := {| self := self w; pending := pending w; fresh := S (fresh w) |};
       events := [] |}.

Definition when (b : bool) (m : M unit) : M unit := if b then m else ret tt.

Definition invoke (callback : option Callback) (err : option JsError) : M unit :=
  match callback with
  | Some cb => observe (Invoke cb err)
  | None => ret tt              (* the default callback, () => {} *)
  end.

(** ** The Duplex base class

    [CloudflareSocket extends Duplex].  The methods below are the part of
    Node's stream implementation the adapter calls ([destroy], [push],
    [end]) or is called by ([read], which this file calls [demand]), as
    documented for [stream.Readable] and [stream.Writable] with the default
    options ([autoDestroy] and [emitClose] on). *)
Module Duplex.

(** The callback Node passes to the [destroy] option: it records that the
    stream is closed and emits ['error'] (when given one) and ['close'].
    A second invocation does nothing. *)
Definition onDestroy (err : option JsError) : M unit :=
  o <- this ;;
  if closed o then ret tt
  else
    update (set_closed true) ;;
    match err with
    | Some e => emit (NError e) ;; emit NClose
    | None => emit NClose
    end.

(** [stream.destroy(err)]: the first call marks the stream destroyed and
    runs the [destroy] option given to the constructor; later calls are
    ignored.  An exception of the option is passed to the callback. *)
Definition destroy
    (_destroy : option JsError -> (option JsError -> M unit) -> M unit)
    (err : option JsError) : M unit :=
  o <- this ;;
  if destroyed o then ret tt
  else
    update (set_destroyed true) ;;
    try_catch (_destroy err onDestroy) (fun e => onDestroy (Some e)).

(** [readable.push(chunk)] on an object-mode stream.  [push(null)] marks
    the end of the stream.  A chunk after the end is an error that
    destroys the stream; a chunk on a destroyed stream is dropped.  An
    accepted chunk, like [push(null)], clears [reading], so that the
    consumer's next demand calls [read] again. *)
Definition push
    (_destroy : option JsError -> (option JsError -> M unit) -> M unit)
    (chunk : option (list byte)) : M unit :=
  observe (Push chunk) ;;
  o <- this ;;
  match chunk with
  | None =>
      update (set_reading false) ;;
      when (negb (ended o)) (update (set_ended true))
  | Some _ =>
      if ended o then
        destroy _destroy (Some (StreamError "ERR_STREAM_PUSH_AFTER_EOF"))
      else if destroyed o then ret tt
      else update (set_reading false)
  end.

(** [readable.read()] as driven by the consumer: the [read] option is
    called only when no call is outstanding ([reading]), the stream has
    not ended and is not destroyed; [reading] is set for the time of the
    call and until the next [push].  An exception of the option destroys
    the stream. *)
Definition demand
    (_destroy : option JsError -> (option JsError -> M unit) -> M unit)
    (_read : M unit) : M unit :=
  o <- this ;;
  if reading o || ended o || destroyed o then ret tt
  else
    update (set_reading true) ;;
    try_catch _read (fun e => destroy _destroy (Some e)).

(** [writable.end(chunk, encoding)]: a final chunk goes through the
    [write] option, then the writable side is marked ended. *)
Definition end_
    (_write : Data -> Encoding -> option Callback -> M unit)
    (chunk : option (Data * Encoding)) : M unit :=
  match chunk with
  | Some (data, encoding) => _write data encoding None
  | None => ret tt
  end ;;
  update (set_writableEnded true).

(** [onwrite], the callback the writable side gives to the [write] option
    in the place of the callback given to [stream.write]: it invokes that
    callback, with the error when there is one, and an error then destroys
    the stream ([errorOrDestroy]). *)
Definition onwrite
    (_destroy : option JsError -> (option JsError -> M unit) -> M unit)
    (callback : option Callback) (er : option JsError) : M unit :=
  match er with
  | Some e => invoke callback (Some e) ;; destroy _destroy (Some e)
  | None => invoke callback None
  end.

End Duplex.

(** ** The constructor options: destroy, read, write *)

(** [destroy: (error, cb) => ...] *)
Definition _destroy (error : option JsError) (cb : option JsError -> M unit)
  : M unit :=
  o <- this ;;
  match cfSocket o with
  | None =>
      (* nothing to do, just call the callback *)
      cb error
  | Some sock =>
      (* close the underlying socket *)
      platform (SockClose sock) ;;
      await (PClose sock error)
  end.

(** [.then(() => cb(error)).catch((error) => cb(error))] on the promise of
    [close()]. *)
Definition close_settled (cb : option JsError -> M unit)
    (error : option JsError) (o : Settlement unit) : M unit :=
  match o with
  | Fulfilled _ => try_catch (cb error) (fun e => cb (Some e))
  | Rejected e => cb (Some e)
  end.

(** [this.destroy(error)] *)
Definition destroy (error : option JsError) : M unit :=
  Duplex.destroy _destroy error.

(** [this.push(chunk)] *)
Definition push (chunk : option (list byte)) : M unit :=
  Duplex.push _destroy chunk.

(** The three assignments that forget the socket and its handles. *)
Definition forget : M unit :=
  update (set_cfSocket None) ;;
  update (set_cfReader None) ;;
  update (set_cfWriter None).

(** [read: () => ...] *)
Definition read : M unit :=
  o <- this ;;
  match cfReader o with
  | None => throw (TypeError "this.#cfReader is null")
  | Some reader =>
      platform (ReaderRead reader) ;;
      await (PRead reader)
  end.

(** [.then((result) => ...).catch((error) => this.destroy(error))] on the
    promise of [read()]. *)
Definition read_settled (o : Settlement ReadResult) : M unit :=
  match o with
  | Fulfilled result =>
      try_catch
        match result with
        | Done =>
            (* connection was closed by the server *)
            forget ;;
            push None
        | Chunk value =>
            push (Some value)
        end
        (fun error => destroy (Some error))
  | Rejected error =>
      (* any error during the read should just bail on the connection *)
      destroy (Some error)
  end.

(** [write: (data, encoding = "utf-8", callback = () => {}) => ...] *)
Definition write (data : Data) (encoding : Encoding)
    (callback : option Callback) : M unit :=
  if Nat.eqb (data_length data) 0 then invoke callback None
  else
    let payload :=
      match data with
      | Str s => BufferFrom s encoding
      | Buf b => Bytes b
      end in
    o <- this ;;
    match cfWriter o with
    | None => throw (TypeError "this.#cfWriter is null")
    | Some writer =>
        platform (WriterWrite writer payload) ;;
        await (PWrite writer callback)
    end.

(** [.then(() => callback()).catch((err) => callback(err))] on the promise
    of [write(data)]. *)
Definition write_settled (callback : option Callback) (o : Settlement unit)
  : M unit :=
  match o with
  | Fulfilled _ =>
      try_catch (invoke callback None) (fun err => invoke callback (Some err))
  | Rejected err => invoke callback (Some err)
  end.

(** ** The methods *)

(** [end(...args)] *)
Definition end_ (chunk : option (Data * Encoding)) : M unit :=
  Duplex.end_ write chunk ;;
  (* we need to sometimes close the socket manually or it will hang forever *)
  o <- this ;;
  match cfSocket o with
  | Some sock => platform (SockClose sock)
  | None => ret tt
  end.

(** [.then(() => { if (!this.#upgrading) ... else ... }).catch((e) =>
    this.emit("error", e))] on the [closed] promise of a socket. *)
Definition closed_settled (o : Settlement unit) : M unit :=
  match o with
  | Rejected e => emit (NError e)
  | Fulfilled _ =>
      try_catch
        (o <- this ;;
         if negb (upgrading o) then
           (* the socket may close unexpectedly *)
           forget ;;
           destroy None
         else
           (* this is the old, non-TLS socket cleaning itself up *)
           update (set_upgrading false) ;;
           update (set_upgraded true))
        (fun e => emit (NError e))
  end.

(** [_addClosedHandler()] *)
Definition _addClosedHandler : M unit :=
  o <- this ;;
  match cfSocket o with
  | None => throw (TypeError "this.#cfSocket is null")
  | Some sock => await (PClosed sock)
  end.

(** [async connect(port, hostname, connectListener)], up to the [await].
    [failure] is what the platform's [connect(...)] does: it throws the
    given error, or ([None]) returns a new socket. *)
Definition connect (port : nat) (hostname : string)
    (connectListener : option Listener) (failure : option JsError) : M unit :=
  try_catch
    (match connectListener with
     | Some l => observe (Once l)
     | None => ret tt
     end ;;
     o <- this ;;
     platform (SockConnect hostname port false
                 (if ssl o then StartTls else Off)) ;;
     sock <- match failure with
             | Some e => throw e
             | None => new_socket
             end ;;
     update (set_cfSocket (Some sock)) ;;
     _addClosedHandler ;;
     platform (GetWriter sock) ;;
     update (set_cfWriter (Some (WriterOf sock))) ;;
     platform (GetReader sock) ;;
     update (set_cfReader (Some (ReaderOf sock))) ;;
     await (POpened sock))
    (fun e => emit (NError e)).

(** The rest of [connect], after [await this.#cfSocket.opened]. *)
Definition opened_settled (o : Settlement unit) : M unit :=
  match o with
  | Fulfilled _ => try_catch (emit NConnect) (fun e => emit (NError e))
  | Rejected e => emit (NError e)
  end.

(** [startTls(options)].  [failure] is what the platform's
    [socket.startTls(options)] does: throw, or return a new socket.
    [releaseLock()] is taken to return normally, as the Streams standard
    has it; a read that is pending on the released reader stays pending
    until the platform settles it. *)
Definition startTls (options : TlsOptions) (failure : option JsError)
  : M unit :=
  o <- this ;;
  if upgraded o then
    (* Don't try to upgrade again. *)
    emit (NError (Message "Cannot call `startTls()` more than once on a socket"))
  else
    update (set_upgrading true) ;;
    match cfWriter o with
    | Some w => platform (ReleaseWriter w)
    | None => ret tt
    end ;;
    match cfReader o with
    | Some r => platform (ReleaseReader r)
    | None => ret tt
    end ;;
    match cfSocket o with
    | None => throw (TypeError "this.#cfSocket is null")
    | Some old =>
        platform (SockStartTls old options) ;;
        new <- match failure with
               | Some e => throw e
               | None => new_socket
               end ;;
        update (set_cfSocket (Some new)) ;;
        platform (GetWriter new) ;;
        update (set_cfWriter (Some (WriterOf new))) ;;
        platform (GetReader new) ;;
        update (set_cfReader (Some (ReaderOf new))) ;;
        _addClosedHandler
    end.

(** ** Executions *)

(** What happens to the object: a method is called ([connect], [startTls],
    [end], [destroy] by the client library; the [write] option, with the
    completion callback of that write, by whoever writes to the stream), the
    readable side asks for data, or the platform settles a promise (the
    [k]-th pending one).  The inputs may come in any order: nothing is
    assumed of the platform or of the caller.  When it is the stream that
    calls the [write] option, the callback is its [onwrite], and a write
    that fails is two inputs here: the settlement, which invokes the
    callback of the write, and the [destroy] that [onwrite] goes on with
    ([onwrite_settles], [onwrite_failure_in_two_steps]). *)
Inductive Input :=
| CallConnect (port : nat) (hostname : string)
              (connectListener : option Listener) (failure : option JsError)
| CallStartTls (options : TlsOptions) (failure : option JsError)
| CallWrite (data : Data) (encoding : Encoding) (callback : option Callback)
| CallEnd (chunk : option (Data * Encoding))
| CallDestroy (error : option JsError)
| Demand
| Settles (k : nat) (o : Settlement unit)
| ReadSettles (k : nat) (o : Settlement ReadResult).

Definition remove_nth {A} (k : nat) (l : list A) : list A :=
  firstn k l ++ skipn (S k) l.

(** A settled promise is no longer pending. *)
Definition settled (k : nat) : M unit :=
  fun w =>
    {| completion := Normal tt;
       world := {| self := self w; pending := remove_nth k (pending w);
                   fresh := fresh w |};
       events := [] |}.

Definition lookup_pending (k : nat) : M (option Pending) :=
  fun w =>
    {| completion := Normal (nth_error (pending w) k); world := w;
       events := [] |}.

Definition step (i : Input) : M unit :=
  match i with
  | CallConnect port hostname connectListener failure =>
      connect port hostname connectListener failure
  | CallStartTls options failure => startTls options failure
  | CallWrite data encoding callback => write data encoding callback
  | CallEnd chunk => end_ chunk
  | CallDestroy error => destroy error
  | Demand => Duplex.demand _destroy read
  | Settles k o =>
      p <- lookup_pending k ;;
      match p with
      | Some (POpened _) => settled k ;; opened_settled o
      | Some (PClosed _) => settled k ;; closed_settled o
      | Some (PWrite _ callback) => settled k ;; write_settled callback o
      | Some (PClose _ error) =>
          settled k ;; close_settled Duplex.onDestroy error o
      | Some (PRead _) | None => ret tt
      end
  | ReadSettles k o =>
      p <- lookup_pending k ;;
      match p with
      | Some (PRead _) => settled k ;; read_settled o
      | _ => ret tt
      end
  end.

(** Running a list of inputs; an exception ends the call that raised it,
    not the execution. *)
Fixpoint run (ins : list Input) (w : World) : World :=
  match ins with
  | [] => w
  | i :: ins' => run ins' (world (step i w))
  end.

Fixpoint trace (ins : list Input) (w : World) : list Event :=
  match ins with
  | [] => []
  | i :: ins' => events (step i w) ++ trace ins' (world (step i w))
  end.

Definition init (ssl : bool) : World :=
  {| self := new ssl; pending := []; fresh := 0 |}.

(** ** Derived views *)

(** The states of the connection.  The class has no state field; the state
    is read off the flags and the socket field. *)
Inductive Phase :=
| Idle          (* no socket held *)
| Open          (* a socket is held, no upgrade started *)
| Upgrading     (* startTls called, the old socket has not closed yet *)
| OpenTls       (* the upgrade is over *)
| Closing       (* destroyed, waiting for close() to settle *)
| Closed.       (* destroyed and the destroy callback has run *)

Definition phase (o : CloudflareSocket) : Phase :=
  if closed o then Closed
  else if destroyed o then Closing
  else match cfSocket o with
       | None => Idle
       | Some _ =>
           if upgrading o then Upgrading
           else if upgraded o then OpenTls
           else Open
       end.

Definition is_notification (e : Event) : bool :=
  match e with
  | Emit _ => true
  | _ => false
  end.

Definition notifications (t : list Event) : list Event :=
  filter is_notification t.

Definition is_read (e : Event) : bool :=
  match e with
  | Platform (ReaderRead _) => true
  | _ => false
  end.

Definition is_close_request (e : Event) : bool :=
  match e with
  | Platform (SockClose _) => true
  | _ => false
  end.

Definition is_pending_read (p : Pending) : bool :=
  match p with
  | PRead _ => true
  | _ => false
  end.

(** The reads that have been issued and have not settled. *)
Definition reads_in_flight (w : World) : nat :=
  List.length (filter is_pending_read (pending w)).

(** ** Properties of worlds, events and computations *)

Definition with_self (o : CloudflareSocket) (w : World) : World :=
  {| self := o; pending := pending w; fresh := fresh w |}.

(** A computation respects a property [P] of the world and a property [E]
    of events when it keeps [P] and logs only events that satisfy [E]. *)
Definition respects {A} (P : World -> Prop) (E : Event -> Prop) (m : M A)
  : Prop :=
  forall w, P w -> P (world (m w)) /\ Forall E (events (m w)).

Definition any_event (e : Event) : Prop := True.

Definition is_close_notification (e : Event) : bool :=
  match e with
  | Emit NClose => true
  | _ => false
  end.

(** How many times ['close'] is emitted in a trace, and how many times the
    flags of the stream say it has been. *)
Definition close_notifications (t : list Event) : nat :=
  List.length (filter is_close_notification t).

Definition closed_count (w : World) : nat :=
  if closed (self w) then 1 else 0.

(** A computation accounts for its ['close'] notifications when each one
    goes with the [closed] flag being raised. *)
Definition accounts {A} (m : M A) : Prop :=
  forall w,
    close_notifications (events (m w)) + closed_count w
    = closed_count (world (m w)).

Definition not_connect (e : Event) : Prop := e <> Emit NConnect.

Definition not_read (e : Event) : Prop := is_read e = false.

Definition no_socket (w : World) : Prop := cfSocket (self w) = None.

(** The socket and both handles have been forgotten. *)
Definition forgotten (w : World) : Prop :=
  cfSocket (self w) = None /\ cfReader (self w) = None /\
  cfWriter (self w) = None.


Definition view_is (b : bool) (n : nat) (w : World) : Prop :=
  reading (self w) = b /\ reads_in_flight w = n.

Definition in_flight_is (n : nat) (w : World) : Prop := reads_in_flight w = n.

(** A world in which reads are issued one at a time: at most one is in
    flight, and none when the stream is not [reading]. *)
Definition single_flight (w : World) : Prop :=
  reads_in_flight w <= 1 /\
  (reading (self w) = false -> reads_in_flight w = 0).

(** ** Sample executions *)

Definition tls_options : TlsOptions := {| expectedServerHostname := Some "db" |}.

(** A connection that has been opened; the same once it has started its
    upgrade to TLS and waits for the old socket to close; and once the old
    socket has closed. *)
Definition opened_world : World :=
  run [CallConnect 5 "db" (Some 7) None; Settles 1 (Fulfilled tt)] (init true).

Definition upgrading_world : World :=
  run [CallStartTls tls_options None] opened_world.

Definition upgraded_world : World :=
  run [Settles 0 (Fulfilled tt)] upgrading_world.

(** ** Further views of the object and of executions *)

(** The reader and the writer held are those of the socket held, and all
    three fields are null together. *)
Definition coherent (w : World) : Prop :=
  match cfSocket (self w) with
  | Some s =>
      cfReader (self w) = Some (ReaderOf s) /\
      cfWriter (self w) = Some (WriterOf s)
  | None => cfReader (self w) = None /\ cfWriter (self w) = None
  end.

(** [upgrading] and [upgraded] are not set together. *)
Definition exclusive_flags (w : World) : Prop :=
  upgraded (self w) = true -> upgrading (self w) = false.

Definition ssl_is (b : bool) (w : World) : Prop := ssl (self w) = b.

(** A call of the platform's [connect] with the options that go with an
    [ssl] flag [b]. *)
Definition connect_mode_ok (b : bool) (e : Event) : Prop :=
  match e with
  | Platform (SockConnect _ _ allowHalfOpen secureTransport) =>
      allowHalfOpen = false /\
      secureTransport = (if b then StartTls else Off)
  | _ => True
  end.

(** What [write] hands to the writer for a chunk. *)
Definition payload_of (data : Data) (encoding : Encoding) : Payload :=
  match data with
  | Str s => BufferFrom s encoding
  | Buf b => Bytes b
  end.

(** A series of writes, one after the other. *)
Definition write_all (ds : list (Data * Encoding * option Callback))
  : list Input :=
  map (fun d => CallWrite (fst (fst d)) (snd (fst d)) (snd d)) ds.

(** The consumer asks for data and the read that follows yields a chunk,
    for each chunk of a list; [k] is the place of the read among the
    pending promises. *)
Definition pump (k : nat) (chunks : list (list byte)) : list Input :=
  flat_map (fun v => [Demand; ReadSettles k (Fulfilled (Chunk v))]) chunks.

Definition is_push (e : Event) : bool :=
  match e with
  | Push _ => true
  | _ => false
  end.

(** ** The socket options

    [setNoDelay()], [setKeepAlive()], [ref()] and [unref()] return [this]
    and do nothing else. *)
Definition setNoDelay : M unit := ret tt.
Definition setKeepAlive : M unit := ret tt.
Definition ref : M unit := ret tt.
Definition unref : M unit := ret tt.

(** ** Debug output: dump and log *)

(** A value given to [log]: binary data ([Uint8Array] or [ArrayBuffer]),
    a string, or anything else. *)
Inductive JsValue :=
| VBytes (b : list byte)
| VString (s : string)
| VOther (n : nat).

Definition LF : ascii := "010"%char.
Definition QUOTE : ascii := "034"%char.

(** [str.replace(/\n/g, "\\n")]: every line feed becomes a backslash
    followed by [n]. *)
Fixpoint escape_newlines (s : string) : string :=
  match s with
  | EmptyString => EmptyString
  | String c s' =>
      if Ascii.eqb c LF
      then String "\"%char (String "n"%char (escape_newlines s'))
      else String c (escape_newlines s')
  end.

(** [Buffer.from(data).toString("hex")]: two lower-case digits a byte. *)
Definition hex_digit (n : nat) : ascii :=
  nth n ["0"; "1"; "2"; "3"; "4"; "5"; "6"; "7"; "8"; "9";
         "a"; "b"; "c"; "d"; "e"; "f"]%char "?"%char.

Fixpoint hex (bs : list byte) : string :=
  match bs with
  | [] => EmptyString
  | b :: bs' =>
      String (hex_digit (Byte.to_nat b / 16))
        (String (hex_digit (Byte.to_nat b mod 16)) (hex bs'))
  end.

(** [dump(data)].  [decode] is [new TextDecoder().decode]. *)
Definition dump (decode : list byte -> string) (data : JsValue) : JsValue :=
  match data with
  | VBytes b =>
      VString
        (String LF
           (">>> STR: " ++
            String QUOTE
              (escape_newlines (decode b) ++
               String QUOTE
                 (String LF (">>> HEX: " ++ hex b ++ String LF EmptyString)))))
  | _ => data
  end.

Definition debug : bool := false.

(** [log(...args)]: the lines given to [console.log]. *)
Definition log (decode : list byte -> string) (args : list JsValue)
  : list (list JsValue) :=
  if debug then [map (dump decode) args] else [].


(** ** The test worker

    [src/test/worker.ts]: both routes make a [pg] client from the request,
    connect, run one query and end the client.  The handlers are taken from
    the creation of the client on; what the client does is given by a
    scenario. *)
Inductive Failure :=
| DatabaseError (name message : string)    (* instanceof DatabaseError *)
| OtherError (name message : string)       (* any other instanceof Error *)
| NotAnError (value : string).             (* a thrown value that is no Error *)

Inductive ClientCall :=
| ClientConnect
| ClientQuery (text : string)
| ClientEnd.

(** What [client.connect()], [client.query(...)] and [client.end()] do:
    reject with a failure, or ([None]) fulfil. *)
Record Scenario := {
  connect_fails : option Failure;
  query_fails : option Failure;
  end_fails : option Failure
}.

Inductive Reply :=
| Response (status : nat) (body : list (string * string))
| Rejects (f : Failure).

(** The [try] block: connect, then the query. *)
Definition attempt (text : string) (sc : Scenario)
  : list ClientCall * option Failure :=
  match connect_fails sc with
  | Some f => ([ClientConnect], Some f)
  | None => ([ClientConnect; ClientQuery text], query_fails sc)
  end.

(** The [catch] block. *)
Definition classify (f : Failure) : Reply :=
  match f with
  | DatabaseError name message =>
      Response 400 [("name", name); ("message", message)]
  | OtherError name message =>
      Response 500 [("name", name); ("message", message)]
  | NotAnError _ => Rejects f
  end.

(** A route handler: [try], [catch], then [finally] with
    [await client.end()], whose failure replaces whatever was to be
    returned or thrown. *)
Definition handle (text : string) (sc : Scenario) : list ClientCall * Reply :=
  let reply :=
    match snd (attempt text sc) with
    | Some f => classify f
    | None => Response 200 []
    end in
  (fst (attempt text sc) ++ [ClientEnd],
   match end_fails sc with
   | Some f => Rejects f
   | None => reply
   end).

Definition root_route : Scenario -> list ClientCall * Reply :=
  handle "SELECT 1".

Definition terminate_backend_route : Scenario -> list ClientCall * Reply :=
  handle "SELECT pg_terminate_backend(pg_backend_pid())".

Definition status_of (r : Reply) : option nat :=
  match r with
  | Response status _ => Some status
  | Rejects _ => None
  end.

(** The first failure of the [try] block. *)
Definition first_failure (sc : Scenario) : option Failure :=
  match connect_fails sc with
  | Some f => Some f
  | None => query_fails sc
  end.

(** ** The write option under the stream *)

(** [.then(() => callback()).catch((err) => callback(err))] on the promise
    of [write(data)], for whatever [callback] the option was given. *)
Definition write_settled_by (callback : option JsError -> M unit)
    (o : Settlement unit) : M unit :=
  match o with
  | Fulfilled _ => try_catch (callback None) (fun err => callback (Some err))
  | Rejected err => callback (Some err)
  end.

(** The promise of a write settles when the option was called by the
    stream: the callback it was given is then [onwrite], around the callback
    of the caller of [stream.write]. *)
Definition onwrite_settles (k : nat) (o : Settlement unit) : M unit :=
  p <- lookup_pending k ;;
  match p with
  | Some (PWrite _ callback) =>
      settled k ;; write_settled_by (Duplex.onwrite _destroy callback) o
  | _ => ret tt
  end.

(** The socket, the reader and the writer fields are all set. *)
Definition holding (w : World) : Prop :=
  cfSocket (self w) <> None /\ cfReader (self w) <> None /\
  cfWriter (self w) <> None.

(** ** Where reads and writes go *)

(** A read or a write made on the handle held in [o]. *)
Definition via_handles (o : CloudflareSocket) (e : Event) : Prop :=
  match e with
  | Platform (ReaderRead r) => cfReader o = Some r
  | Platform (WriterWrite wr _) => cfWriter o = Some wr
  | _ => True
  end.

(** A read or a write made on the reader or writer of the socket held in
    [o]. *)
Definition to_socket_held (o : CloudflareSocket) (e : Event) : Prop :=
  match e with
  | Platform (ReaderRead r) =>
      exists s, cfSocket o = Some s /\ r = ReaderOf s
  | Platform (WriterWrite wr _) =>
      exists s, cfSocket o = Some s /\ wr = WriterOf s
  | _ => True
  end.

Definition no_io (e : Event) : Prop :=
  match e with
  | Platform (ReaderRead _) | Platform (WriterWrite _ _) => False
  | _ => True
  end.

Definition same_handles (w0 w : World) : Prop :=
  cfReader (self w) = cfReader (self w0) /\
  cfWriter (self w) = cfWriter (self w0).

(** * Properties *)

(** ** Laws of the monad *)

Lemma bind_this {A} (f : CloudflareSocket -> M A) (w : World) :
  (o <- this ;; f o) w = f (self w) w.
Proof.
  unfold bind, this; simpl. destruct (f (self w) w); reflexivity.
Qed.

Lemma bind_update {A} (f : CloudflareSocket -> CloudflareSocket) (m : M A)
    (w : World) :
  (update f ;; m) w = m (with_self (f (self w)) w).
Proof.
  unfold bind, update, with_self; simpl.
  match goal with |- context [m ?x] => destruct (m x) end; reflexivity.
Qed.

Lemma bind_lookup_pending {A} (k : nat) (f : option Pending -> M A)
    (w : World) :
  (p <- lookup_pending k ;; f p) w = f (nth_error (pending w) k) w.
Proof.
  unfold bind, lookup_pending; simpl.
  destruct (f (nth_error (pending w) k) w); reflexivity.
Qed.

Lemma bind_settled {A} (k : nat) (m : M A) (w : World) :
  (settled k ;; m) w =
    m {| self := self w; pending := remove_nth k (pending w);
         fresh := fresh w |}.
Proof.
  unfold bind, settled; simpl.
  match goal with |- context [m ?x] => destruct (m x) end; reflexivity.
Qed.

Lemma try_catch_normal {A} (body : M A) (handler : JsError -> M A)
    (w : World) (a : A) :
  completion (body w) = Normal a -> try_catch body handler w = body w.
Proof.
  intros Hn. unfold try_catch. rewrite Hn. reflexivity.
Qed.

(** ** What the computations evaluate to *)

Lemma forget_eq (w : World) :
  forget w =
    {| completion := Normal tt;
       world := with_self (set_cfWriter None (set_cfReader None
                             (set_cfSocket None (self w)))) w;
       events := [] |}.
Proof. reflexivity. Qed.

(** [destroy] on a destroyed stream does nothing. *)
Lemma destroy_again (error : option JsError) (w : World) :
  destroyed (self w) = true -> destroy error w = ret tt w.
Proof.
  intros Hd. cbv [destroy Duplex.destroy bind this completion world events].
  rewrite Hd. reflexivity.
Qed.

(** [destroy] when no socket is held: the callback runs at once. *)
Lemma destroy_without_socket (error : option JsError) (w : World) :
  destroyed (self w) = false ->
  closed (self w) = false ->
  cfSocket (self w) = None ->
  destroy error w =
    {| completion := Normal tt;
       world := with_self (set_closed true (set_destroyed true (self w))) w;
       events := match error with
                 | Some e => [Emit (NError e); Emit NClose]
                 | None => [Emit NClose]
                 end |}.
Proof.
  destruct w as [o ps n]; simpl; intros Hd Hc Hs.
  cbv [destroy Duplex.destroy _destroy Duplex.onDestroy try_catch bind this
       update emit observe ret completion world events self pending fresh
       with_self].
  rewrite Hd. simpl. rewrite Hs. simpl. rewrite Hc.
  destruct error; reflexivity.
Qed.

(** [destroy] when a socket is held: a close request, and a pending
    promise. *)
Lemma destroy_with_socket (error : option JsError) (w : World)
    (sock : SocketId) :
  destroyed (self w) = false ->
  cfSocket (self w) = Some sock ->
  destroy error w =
    {| completion := Normal tt;
       world := {| self := set_destroyed true (self w);
                   pending := pending w ++ [PClose sock error];
                   fresh := fresh w |};
       events := [Platform (SockClose sock)] |}.
Proof.
  destruct w as [o ps n]; simpl; intros Hd Hs.
  cbv [destroy Duplex.destroy _destroy try_catch bind this update platform
       observe await ret completion world events self pending fresh].
  rewrite Hd. simpl. rewrite Hs. reflexivity.
Qed.

(** [destroy] without a socket: no close request and no pending promise. *)
Lemma destroy_no_socket (error : option JsError) (w : World) :
  no_socket w ->
  let d := destroy error w in
  completion d = Normal tt /\
  filter is_close_request (events d) = [] /\
  pending (world d) = pending w /\
  destroyed (self (world d)) = true /\
  (destroyed (self w) = false -> closed (self (world d)) = true).
Proof.
  destruct w as [o ps n]; unfold no_socket; simpl; intros Hs.
  cbv [destroy Duplex.destroy _destroy Duplex.onDestroy try_catch bind this
       update emit observe ret completion world events self pending fresh].
  destruct (destroyed o) eqn:Hd; simpl.
  - repeat split; [exact Hd | discriminate].
  - rewrite Hs; simpl. destruct (closed o) eqn:Hc; simpl.
    + repeat split. intros _. exact Hc.
    + destruct error; simpl; repeat split.
Qed.

Lemma read_with_reader (w : World) (reader : Reader) :
  cfReader (self w) = Some reader ->
  read w =
    {| completion := Normal tt;
       world := {| self := self w; pending := pending w ++ [PRead reader];
                   fresh := fresh w |};
       events := [Platform (ReaderRead reader)] |}.
Proof.
  intros Hr. unfold read. rewrite bind_this, Hr. reflexivity.
Qed.

Lemma read_without_reader (w : World) :
  cfReader (self w) = None ->
  read w =
    {| completion := Thrown (TypeError "this.#cfReader is null");
       world := w; events := [] |}.
Proof.
  intros Hr. unfold read. rewrite bind_this, Hr. reflexivity.
Qed.

(** ** Lists *)

Lemma remove_nth_cons {A} (k : nat) (a : A) (l : list A) :
  remove_nth (S k) (a :: l) = a :: remove_nth k l.
Proof. reflexivity. Qed.

Lemma filter_remove_nth {A} (f : A -> bool) (l : list A) (k : nat) (x : A) :
  nth_error l k = Some x ->
  List.length (filter f l) =
    List.length (filter f (remove_nth k l)) + (if f x then 1 else 0).
Proof.
  revert k. induction l as [ | a l IH]; intros [ | k] Hk; simpl in Hk;
    try discriminate.
  - injection Hk as ->. unfold remove_nth; simpl.
    destruct (f x); simpl; lia.
  - specialize (IH k Hk). rewrite remove_nth_cons. cbn [filter].
    destruct (f a); cbn [List.length]; lia.
Qed.

Lemma not_read_filter (l : list Event) :
  Forall not_read l -> filter is_read l = [].
Proof.
  induction 1 as [ | e l He _ IH]; simpl; [reflexivity | ].
  unfold not_read in He. rewrite He. exact IH.
Qed.

(** ** What every computation respects

    [respects P E] is inherited by sequencing and by [try]/[catch], so that
    a method respects [P] and [E] as soon as the assignments, waits and
    notifications it is made of do. *)
Section Respects.

Variable P : World -> Prop.
Variable E : Event -> Prop.

Lemma respects_ret {A} (a : A) : respects P E (ret a).
Proof. intros w Hw; split; [exact Hw | constructor]. Qed.

Lemma respects_throw {A} (e : JsError) : respects P E (@throw A e).
Proof. intros w Hw; split; [exact Hw | constructor]. Qed.

Lemma respects_this : respects P E this.
Proof. intros w Hw; split; [exact Hw | constructor]. Qed.

Lemma respects_lookup_pending (k : nat) : respects P E (lookup_pending k).
Proof. intros w Hw; split; [exact Hw | constructor]. Qed.

Lemma respects_observe (e : Event) : E e -> respects P E (observe e).
Proof. intros He w Hw; split; [exact Hw | repeat constructor; exact He]. Qed.

Lemma respects_bind {A B} (m : M A) (f : A -> M B) :
  respects P E m -> (forall a, respects P E (f a)) -> respects P E (bind m f).
Proof.
  intros Hm Hf w Hw. unfold bind.
  destruct (Hm w Hw) as [Hp He].
  destruct (completion (m w)) as [a | e]; simpl.
  - destruct (Hf a _ Hp) as [Hp' He']. split; [exact Hp' | ].
    apply Forall_app; split; assumption.
  - split; assumption.
Qed.

Lemma respects_try_catch {A} (body : M A) (handler : JsError -> M A) :
  respects P E body -> (forall e, respects P E (handler e)) ->
  respects P E (try_catch body handler).
Proof.
  intros Hm Hf w Hw. unfold try_catch.
  destruct (Hm w Hw) as [Hp He].
  destruct (completion (body w)) as [a | e]; simpl.
  - split; assumption.
  - destruct (Hf e _ Hp) as [Hp' He']. split; [exact Hp' | ].
    apply Forall_app; split; assumption.
Qed.

(** A primitive that logs nothing respects [E]; what is left to show is
    that the change it makes to the world keeps [P]. *)
Lemma respects_quiet {A} (m : M A) :
  (forall w, events (m w) = []) ->
  (forall w, P w -> P (world (m w))) ->
  respects P E m.
Proof.
  intros Hq Hp w Hw. split; [apply Hp, Hw | rewrite Hq; constructor].
Qed.

End Respects.

Lemma respects_events {A} (E : Event -> Prop) (m : M A) (w : World)
    (e : Event) :
  respects (fun _ => True) E m -> In e (events (m w)) -> E e.
Proof.
  intros Hm Hin. destruct (Hm w I) as [_ Hall].
  rewrite Forall_forall in Hall. apply Hall, Hin.
Qed.

(** Unfold the methods down to the primitives of the monad. *)
Ltac unfold_methods :=
  cbv beta zeta delta
    [step connect startTls write end_ destroy push forget read
     read_settled write_settled closed_settled opened_settled close_settled
     _destroy _addClosedHandler
     Duplex.demand Duplex.destroy Duplex.push Duplex.onDestroy Duplex.end_
     invoke when emit platform].

(** Walk through a computation; [prim] is run on the assignments and waits,
    [ev] on the logged events. *)
Ltac respect prim ev :=
  repeat first
    [ apply respects_ret
    | apply respects_throw
    | apply respects_this
    | apply respects_lookup_pending
    | apply respects_bind; [ | intro ]
    | apply respects_try_catch; [ | intro ]
    | apply respects_observe; solve [ev]
    | match goal with
      | |- respects _ _ (match ?x with _ => _ end) => destruct x
      | |- respects _ _ (if ?x then _ else _) => destruct x
      end
    | apply respects_quiet; [ reflexivity | solve [prim] ] ].

(** ** Counting the close notifications

    ['close'] is emitted by the callback of [destroy] and nowhere else, and
    that callback emits it only when it raises [closed].  So along any
    execution the notifications emitted so far and the flag add up. *)

Lemma close_notifications_app (t1 t2 : list Event) :
  close_notifications (t1 ++ t2)
  = close_notifications t1 + close_notifications t2.
Proof.
  unfold close_notifications. rewrite filter_app, length_app. reflexivity.
Qed.

Lemma accounts_quiet {A} (m : M A) :
  (forall w, events (m w) = []) ->
  (forall w, closed (self (world (m w))) = closed (self w)) ->
  accounts m.
Proof.
  intros He Hc w. unfold closed_count. rewrite He, Hc. reflexivity.
Qed.

Lemma accounts_observe (e : Event) :
  is_close_notification e = false -> accounts (observe e).
Proof.
  intros He w. unfold close_notifications; simpl. rewrite He. reflexivity.
Qed.

Lemma accounts_bind {A B} (m : M A) (f : A -> M B) :
  accounts m -> (forall a, accounts (f a)) -> accounts (bind m f).
Proof.
  intros Hm Hf w. unfold bind. specialize (Hm w).
  destruct (completion (m w)) as [a | e]; simpl.
  - specialize (Hf a (world (m w))).
    rewrite close_notifications_app. lia.
  - exact Hm.
Qed.

Lemma accounts_try_catch {A} (body : M A) (handler : JsError -> M A) :
  accounts body -> (forall e, accounts (handler e)) ->
  accounts (try_catch body handler).
Proof.
  intros Hm Hf w. unfold try_catch. specialize (Hm w).
  destruct (completion (body w)) as [a | e]; simpl.
  - exact Hm.
  - specialize (Hf e (world (body w))).
    rewrite close_notifications_app. lia.
Qed.

Lemma accounts_onDestroy (err : option JsError) :
  accounts (Duplex.onDestroy err).
Proof.
  intros [o ps n].
  cbv [Duplex.onDestroy bind this update emit observe ret completion world events
       self closed_count].
  destruct (closed o) eqn:Hc; simpl.
  - rewrite Hc. reflexivity.
  - destruct err; reflexivity.
Qed.

(** Unfold the methods down to the monad and the callback of [destroy]. *)
Ltac unfold_methods_to_onDestroy :=
  cbv beta zeta delta
    [step connect startTls write end_ destroy push forget read
     read_settled write_settled closed_settled opened_settled close_settled
     _destroy _addClosedHandler
     Duplex.demand Duplex.destroy Duplex.push Duplex.end_
     invoke when emit platform].

Ltac account :=
  repeat first
    [ match goal with
      | |- accounts (Duplex.onDestroy _) => apply accounts_onDestroy
      end
    | apply accounts_bind; [ | intro ]
    | apply accounts_try_catch; [ | intro ]
    | apply accounts_observe; reflexivity
    | match goal with
      | |- accounts (match ?x with _ => _ end) => destruct x
      | |- accounts (if ?x then _ else _) => destruct x
      end
    | apply accounts_quiet; [ reflexivity | intros [? ? ?]; reflexivity ] ].

Lemma step_accounts (i : Input) : accounts (step i).
Proof.
  destruct i as [p h l f | op f | d en cb | [[d en] | ] | er | | k st | k st];
    unfold_methods_to_onDestroy; account.
Qed.

Lemma run_accounts (ins : list Input) (w : World) :
  close_notifications (trace ins w) + closed_count w
  = closed_count (run ins w).
Proof.
  revert w. induction ins as [ | i ins IH]; intros w; simpl.
  - reflexivity.
  - rewrite close_notifications_app, <- IH, <- (step_accounts i w). lia.
Qed.

(** In an execution ['close'] is emitted at most once, and not at all once
    the stream is closed. *)
Lemma close_at_most_once (ins : list Input) (w : World) :
  close_notifications (trace ins w) + closed_count w <= 1.
Proof.
  rewrite run_accounts. unfold closed_count.
  destruct (closed (self (run ins w))); lia.
Qed.

Lemma destroy_keeps_forgotten (error : option JsError) :
  respects forgotten any_event (destroy error).
Proof.
  unfold_methods;
    respect ltac:(intros [? ? ?] ?; assumption) ltac:(exact I).
Qed.

(** ** A sample execution

    A TLS connection from start to finish: connect, the opened-signal, a
    first read that yields a chunk, the upgrade, the old socket closing, a
    read on the new socket that ends the stream, and [destroy]. *)

Example handshake_trace :
  trace [ CallConnect 5 "db" (Some 7) None; Settles 1 (Fulfilled tt); Demand;
          ReadSettles 1 (Fulfilled (Chunk ["S"%byte]));
          CallStartTls tls_options None; Demand; Settles 0 (Fulfilled tt);
          ReadSettles 1 (Fulfilled Done); CallDestroy None ]
        (init true)
  = [ Once 7; Platform (SockConnect "db" 5 false StartTls);
      Platform (GetWriter 0); Platform (GetReader 0);
      Emit NConnect;
      Platform (ReaderRead (ReaderOf 0));
      Push (Some ["S"%byte]);
      Platform (ReleaseWriter (WriterOf 0));
      Platform (ReleaseReader (ReaderOf 0));
      Platform (SockStartTls 0 tls_options);
      Platform (GetWriter 1); Platform (GetReader 1);
      Platform (ReaderRead (ReaderOf 1));
      Push None;
      Emit NClose ].
Proof. vm_compute. reflexivity. Qed.

(** ** Closed-signal monitor *)

(** C1. When the closed-signal resolves while [upgrading] is set, the handler
    clears [upgrading], sets [upgraded], keeps the socket, reader and writer,
    changes nothing else, raises nothing and emits nothing; an adapter that
    was in the Upgrading state is in the post-upgrade Open state. *)
Theorem closed_while_upgrading (w : World) (v : unit)
    (Hup : upgrading (self w) = true) :
  let r := closed_settled (Fulfilled v) w in
  completion r = Normal tt /\
  events r = [] /\
  world r = {| self := set_upgraded true (set_upgrading false (self w));
               pending := pending w; fresh := fresh w |} /\
  upgrading (self (world r)) = false /\
  upgraded (self (world r)) = true /\
  cfSocket (self (world r)) = cfSocket (self w) /\
  cfReader (self (world r)) = cfReader (self w) /\
  cfWriter (self (world r)) = cfWriter (self w) /\
  destroyed (self (world r)) = destroyed (self w) /\
  closed (self (world r)) = closed (self w) /\
  (phase (self w) = Upgrading -> phase (self (world r)) = OpenTls).
Proof.
  destruct w as [o ps n]; simpl in Hup.
  cbv [closed_settled try_catch bind this update ret completion world events
       self pending fresh negb].
  rewrite Hup; simpl.
  repeat split.
  unfold phase; simpl.
  destruct (closed o), (destroyed o), (cfSocket o); congruence.
Qed.

Lemma closed_while_upgrading_witness :
  upgrading (self upgrading_world) = true /\
  phase (self upgrading_world) = Upgrading /\
  events (closed_settled (Fulfilled tt) upgrading_world) = [] /\
  phase (self (world (closed_settled (Fulfilled tt) upgrading_world))) = OpenTls.
Proof.
  destruct (closed_while_upgrading upgrading_world tt eq_refl)
    as (_ & Hev & _ & _ & _ & _ & _ & _ & _ & _ & Hph).
  split; [reflexivity | split; [reflexivity | split]].
  - exact Hev.
  - exact (Hph eq_refl).
Defined.

(** C2. When the closed-signal resolves while [upgrading] is clear, the
    handler sets the socket, reader and writer to null and calls
    [destroy()]; no close request is sent to the platform.  On an adapter
    that had not been destroyed this closes it: it is in the Closed state,
    exactly one notification, ['close'], is emitted, and none is emitted
    again whatever follows. *)
Theorem closed_while_not_upgrading (w : World) (v : unit)
    (Hup : upgrading (self w) = false) :
  let r := closed_settled (Fulfilled v) w in
  r = (forget ;; destroy None) w /\
  completion r = Normal tt /\
  cfSocket (self (world r)) = None /\
  cfReader (self (world r)) = None /\
  cfWriter (self (world r)) = None /\
  destroyed (self (world r)) = true /\
  filter is_close_request (events r) = [] /\
  pending (world r) = pending w /\
  (destroyed (self w) = false -> closed (self w) = false ->
   phase (self (world r)) = Closed /\
   events r = [Emit NClose] /\
   List.length (notifications (events r)) = 1 /\
   forall ins : list Input, close_notifications (trace ins (world r)) = 0).
Proof.
  set (w1 := world (forget w)).
  assert (Hf1 : forgotten w1) by (repeat split).
  destruct (destroy_no_socket None w1 (proj1 Hf1))
    as (Hc & Hq & Hp & Hd & _).
  destruct (destroy_keeps_forgotten None w1 Hf1) as [(Hs & Hrd & Hwr) _].
  assert (Hseq : (forget ;; destroy None) w = destroy None w1).
  { unfold bind, w1. rewrite forget_eq. cbn [completion world events app].
    destruct (destroy None _); reflexivity. }
  assert (Hr : closed_settled (Fulfilled v) w = (forget ;; destroy None) w).
  { unfold closed_settled.
    rewrite try_catch_normal with (a := tt); rewrite bind_this, Hup;
      cbn [negb].
    - reflexivity.
    - rewrite Hseq. exact Hc. }
  cbv zeta. rewrite Hr. split; [reflexivity | ]. rewrite Hseq.
  repeat (split; [assumption | ]).
  intros Hlive Hopen.
  rewrite (destroy_without_socket None w1 Hlive Hopen (proj1 Hf1)).
  cbn [completion world events].
  repeat (split; [reflexivity | ]).
  intros ins.
  match goal with
  | |- close_notifications (trace ins ?w2) = 0 =>
      pose proof (close_at_most_once ins w2) as Hle;
      change (closed_count w2) with 1 in Hle
  end.
  lia.
Qed.

Lemma closed_while_not_upgrading_witness :
  upgrading (self opened_world) = false /\
  destroyed (self opened_world) = false /\
  closed (self opened_world) = false /\
  events (closed_settled (Fulfilled tt) opened_world) = [Emit NClose] /\
  phase (self (world (closed_settled (Fulfilled tt) opened_world))) = Closed.
Proof.
  destruct (closed_while_not_upgrading opened_world tt eq_refl)
    as (_ & _ & _ & _ & _ & _ & _ & _ & Hlive).
  destruct (Hlive eq_refl eq_refl) as (Hph & Hev & _).
  split; [reflexivity | split; [reflexivity | split; [reflexivity | split]]].
  - exact Hev.
  - exact Hph.
Defined.

(** On an adapter that has been destroyed already the [destroy()] of the
    handler is ignored: nothing is emitted. *)
Lemma closed_after_destroy (w : World) (v : unit) :
  upgrading (self w) = false ->
  destroyed (self w) = true ->
  let r := closed_settled (Fulfilled v) w in
  cfSocket (self (world r)) = None /\ events r = [] /\
  pending (world r) = pending w.
Proof.
  destruct w as [o ps n]; simpl; intros Hup Hd.
  cbv [closed_settled try_catch bind this update ret completion world events
       self pending fresh negb forget destroy Duplex.destroy app].
  simpl. rewrite Hup. simpl. rewrite Hd. simpl. repeat split.
Qed.

(** ** TLS upgrade *)

(** C3. [startTls] tests [upgraded] only.  Called a second time while the
    first upgrade is still in progress ([upgrading] set, [upgraded] clear) it
    emits nothing and upgrades again: the locks are released, the platform
    is asked for another TLS socket, and that socket replaces the active one. *)
Theorem startTls_while_upgrading_proceeds :
  let w := upgrading_world in
  let r := startTls tls_options None w in
  upgrading (self w) = true /\
  upgraded (self w) = false /\
  cfSocket (self w) = Some 1 /\
  completion r = Normal tt /\
  notifications (events r) = [] /\
  events r = [Platform (ReleaseWriter (WriterOf 1));
              Platform (ReleaseReader (ReaderOf 1));
              Platform (SockStartTls 1 tls_options);
              Platform (GetWriter 2); Platform (GetReader 2)] /\
  cfSocket (self (world r)) = Some 2 /\
  cfReader (self (world r)) = Some (ReaderOf 2) /\
  cfWriter (self (world r)) = Some (WriterOf 2) /\
  pending (world r) = pending w ++ [PClosed 2].
Proof. vm_compute. repeat split. Qed.

(** The guard never looks at [upgrading]: whenever [upgraded] is clear and a
    socket is held, the call emits nothing and installs a new socket. *)
Lemma startTls_guard_ignores_upgrading (w : World) (sock : SocketId)
    (options : TlsOptions) :
  upgraded (self w) = false ->
  cfSocket (self w) = Some sock ->
  let r := startTls options None w in
  completion r = Normal tt /\
  notifications (events r) = [] /\
  upgrading (self (world r)) = true /\
  cfSocket (self (world r)) = Some (fresh w).
Proof.
  destruct w as [o ps n]; simpl; intros Hup Hs.
  cbv [startTls bind this update ret throw platform observe new_socket
       _addClosedHandler await completion world events self pending fresh].
  rewrite Hup, Hs.
  destruct (cfWriter o), (cfReader o); simpl; repeat split.
Qed.

Lemma step_keeps_upgraded (i : Input) :
  respects (fun w => upgraded (self w) = true) (fun _ => True) (step i).
Proof.
  destruct i; unfold_methods;
    respect ltac:(intros [? ? ?] ?; simpl in *; solve [assumption | reflexivity])
            ltac:(exact I).
Qed.

Lemma run_keeps_upgraded (ins : list Input) (w : World) :
  upgraded (self w) = true -> upgraded (self (run ins w)) = true.
Proof.
  revert w. induction ins as [ | i ins IH]; intros w Hup; simpl.
  - exact Hup.
  - apply IH. apply (step_keeps_upgraded i w Hup).
Qed.

(** C4. [upgraded] is never reset: once set it stays set through every
    step and every execution.  On such an adapter [startTls] only emits the
    error notification; the object, and with it the active socket, the
    handles and the pending promises, is left exactly as it was. *)
Theorem upgraded_is_monotonic (w : World)
    (Hup : upgraded (self w) = true) :
  (forall i : Input, upgraded (self (world (step i w))) = true) /\
  (forall ins : list Input, upgraded (self (run ins w)) = true) /\
  (forall (options : TlsOptions) (failure : option JsError),
      startTls options failure w =
        {| completion := Normal tt; world := w;
           events :=
             [Emit (NError (Message
                "Cannot call `startTls()` more than once on a socket"))] |}).
Proof.
  split; [ | split].
  - intros i. apply (step_keeps_upgraded i w Hup).
  - intros ins. apply run_keeps_upgraded, Hup.
  - intros options failure. unfold startTls.
    rewrite bind_this, Hup. reflexivity.
Qed.

Lemma upgraded_is_monotonic_witness :
  upgraded (self upgraded_world) = true /\
  cfSocket (self upgraded_world) = Some 1 /\
  world (startTls tls_options None upgraded_world) = upgraded_world /\
  upgraded (self (run [CallStartTls tls_options None; CallDestroy None]
                    upgraded_world)) = true.
Proof.
  destruct (upgraded_is_monotonic upgraded_world eq_refl) as (_ & Hrun & Htls).
  split; [reflexivity | split; [reflexivity | split]].
  - rewrite (Htls tls_options None). reflexivity.
  - apply Hrun.
Defined.

(** ** Connecting *)

Ltac trivial_world := intros; exact I.
Ltac other_event := unfold not_connect; discriminate.

(** Only the continuation of [await opened] emits ['connect']. *)
Lemma connect_silent port hostname connectListener failure :
  respects (fun _ => True) not_connect
    (connect port hostname connectListener failure).
Proof. unfold_methods; respect trivial_world other_event. Qed.

Lemma startTls_silent options failure :
  respects (fun _ => True) not_connect (startTls options failure).
Proof. unfold_methods; respect trivial_world other_event. Qed.

Lemma write_silent data encoding callback :
  respects (fun _ => True) not_connect (write data encoding callback).
Proof. unfold_methods; respect trivial_world other_event. Qed.

Lemma end_silent chunk : respects (fun _ => True) not_connect (end_ chunk).
Proof.
  destruct chunk as [[data encoding] | ];
    unfold_methods; respect trivial_world other_event.
Qed.

Lemma destroy_silent error :
  respects (fun _ => True) not_connect (destroy error).
Proof. unfold_methods; respect trivial_world other_event. Qed.

Lemma demand_silent :
  respects (fun _ => True) not_connect (Duplex.demand _destroy read).
Proof. unfold_methods; respect trivial_world other_event. Qed.

Lemma closed_settled_silent o :
  respects (fun _ => True) not_connect (closed_settled o).
Proof. unfold_methods; respect trivial_world other_event. Qed.

Lemma write_settled_silent callback o :
  respects (fun _ => True) not_connect (write_settled callback o).
Proof. unfold_methods; respect trivial_world other_event. Qed.

Lemma close_settled_silent error o :
  respects (fun _ => True) not_connect
    (close_settled Duplex.onDestroy error o).
Proof. unfold_methods; respect trivial_world other_event. Qed.

Lemma read_settled_silent o :
  respects (fun _ => True) not_connect (read_settled o).
Proof. unfold_methods; respect trivial_world other_event. Qed.

(** C5. [connect] never raises.  When the platform refuses the socket at
    once, or when the opened-signal rejects, an error is emitted and no
    ['connect'].  When the platform returns a socket, the call itself emits
    nothing and leaves the opened-signal pending; ['connect'] is emitted by
    the continuation of that signal, once, when it fulfils; and no other
    step of an execution emits it. *)
Theorem connect_notifies_after_opened (w : World) (port : nat)
    (hostname : string) (connectListener : option Listener) :
  (forall failure : option JsError,
      completion (connect port hostname connectListener failure w)
      = Normal tt) /\
  (forall e : JsError,
      let r := connect port hostname connectListener (Some e) w in
      notifications (events r) = [Emit (NError e)] /\
      pending (world r) = pending w) /\
  (let r := connect port hostname connectListener None w in
   notifications (events r) = [] /\
   pending (world r) = pending w ++ [PClosed (fresh w); POpened (fresh w)]) /\
  (forall (w' : World) (e : JsError),
      opened_settled (Rejected e) w' =
        {| completion := Normal tt; world := w';
           events := [Emit (NError e)] |}) /\
  (forall (w' : World) (v : unit),
      opened_settled (Fulfilled v) w' =
        {| completion := Normal tt; world := w';
           events := [Emit NConnect] |}) /\
  (forall (w' : World) (i : Input),
      In (Emit NConnect) (events (step i w')) ->
      exists (k : nat) (s : SocketId) (v : unit),
        i = Settles k (Fulfilled v) /\
        nth_error (pending w') k = Some (POpened s) /\
        events (step i w') = [Emit NConnect] /\
        pending (world (step i w')) = remove_nth k (pending w')).
Proof.
  destruct w as [o ps n].
  split; [ | split; [ | split; [ | split; [ | split]]]].
  - intros [e | ]; destruct connectListener; reflexivity.
  - intros e; destruct connectListener; split; reflexivity.
  - destruct connectListener;
      (split; [reflexivity | simpl; rewrite <- app_assoc; reflexivity]).
  - reflexivity.
  - reflexivity.
  - intros w' i Hin.
    assert (Hno : forall m : M unit,
               respects (fun _ => True) not_connect m ->
               ~ In (Emit NConnect) (events (m w'))).
    { intros m Hm Hin'. apply (respects_events _ _ _ _ Hm Hin'). reflexivity. }
    destruct i as [p h l f | op f | d en cb | ch | er | | k st | k st];
      simpl in Hin.
    + exfalso. apply (Hno _ (connect_silent p h l f)), Hin.
    + exfalso. apply (Hno _ (startTls_silent op f)), Hin.
    + exfalso. apply (Hno _ (write_silent d en cb)), Hin.
    + exfalso. apply (Hno _ (end_silent ch)), Hin.
    + exfalso. apply (Hno _ (destroy_silent er)), Hin.
    + exfalso. apply (Hno _ demand_silent), Hin.
    + unfold step in *. rewrite bind_lookup_pending in *.
      destruct (nth_error (pending w') k) as [[s | s | r | wr cb | s er] | ]
        eqn:Hk; try rewrite bind_settled in *.
      * destruct st as [v | e].
        -- exists k, s, v. repeat split. exact Hk.
        -- simpl in Hin. destruct Hin as [Hin | []]. discriminate.
      * exfalso.
        apply (respects_events _ _ _ _ (closed_settled_silent st) Hin).
        reflexivity.
      * destruct Hin.
      * exfalso.
        apply (respects_events _ _ _ _ (write_settled_silent cb st) Hin).
        reflexivity.
      * exfalso.
        apply (respects_events _ _ _ _ (close_settled_silent er st) Hin).
        reflexivity.
      * destruct Hin.
    + unfold step in *. rewrite bind_lookup_pending in *.
      destruct (nth_error (pending w') k) as [[s | s | r | wr cb | s er] | ]
        eqn:Hk; try rewrite bind_settled in *; try (destruct Hin; fail).
      exfalso.
      apply (respects_events _ _ _ _ (read_settled_silent st) Hin).
      reflexivity.
Qed.

(** ** Read pump: end of stream *)







(** ** Read pump: one read at a time *)

Ltac keeps_view :=
  intros [? ? ?]; unfold view_is, in_flight_is, reads_in_flight; simpl;
  try rewrite filter_app, length_app; simpl; intros;
  solve [assumption | lia
        | match goal with H : _ /\ _ |- _ => destruct H; split; lia end
        | match goal with H : _ /\ _ |- _ =>
            destruct H; split; [assumption | lia] end ].

Ltac is_not_read := unfold not_read; reflexivity.

(** The methods and continuations that have nothing to do with reading
    issue no read and leave [reading] and the reads in flight alone. *)
Lemma connect_keeps_view b n port hostname connectListener failure :
  respects (view_is b n) not_read
    (connect port hostname connectListener failure).
Proof. unfold_methods; respect keeps_view is_not_read. Qed.

Lemma startTls_keeps_view b n options failure :
  respects (view_is b n) not_read (startTls options failure).
Proof. unfold_methods; respect keeps_view is_not_read. Qed.

Lemma write_keeps_view b n data encoding callback :
  respects (view_is b n) not_read (write data encoding callback).
Proof. unfold_methods; respect keeps_view is_not_read. Qed.

Lemma end_keeps_view b n chunk :
  respects (view_is b n) not_read (end_ chunk).
Proof.
  destruct chunk as [[data encoding] | ];
    unfold_methods; respect keeps_view is_not_read.
Qed.

Lemma destroy_keeps_view b n error :
  respects (view_is b n) not_read (destroy error).
Proof. unfold_methods; respect keeps_view is_not_read. Qed.

Lemma opened_settled_keeps_view b n o :
  respects (view_is b n) not_read (opened_settled o).
Proof. unfold_methods; respect keeps_view is_not_read. Qed.

Lemma closed_settled_keeps_view b n o :
  respects (view_is b n) not_read (closed_settled o).
Proof. unfold_methods; respect keeps_view is_not_read. Qed.

Lemma write_settled_keeps_view b n callback o :
  respects (view_is b n) not_read (write_settled callback o).
Proof. unfold_methods; respect keeps_view is_not_read. Qed.

Lemma close_settled_keeps_view b n error o :
  respects (view_is b n) not_read (close_settled Duplex.onDestroy error o).
Proof. unfold_methods; respect keeps_view is_not_read. Qed.

(** The continuation of a read pushes, and so may clear [reading]; it
    issues no read itself. *)
Lemma read_settled_keeps_in_flight n o :
  respects (in_flight_is n) not_read (read_settled o).
Proof. unfold_methods; respect keeps_view is_not_read. Qed.

(** Such a computation keeps [single_flight] and issues no read. *)
Lemma stable_single_flight {A} (m : M A) (w : World) :
  (forall b n, respects (view_is b n) not_read m) ->
  reading (self (world (m w))) = reading (self w) /\
  reads_in_flight (world (m w)) = reads_in_flight w /\
  filter is_read (events (m w)) = [].
Proof.
  intros Hm.
  destruct (Hm (reading (self w)) (reads_in_flight w) w (conj eq_refl eq_refl))
    as [[Hr Hn] He].
  repeat split; [exact Hr | exact Hn | apply not_read_filter, He].
Qed.

(** Demand from the consumer calls [read] only when the stream is not
    [reading]; the read it issues is then the only one in flight. *)
Lemma demand_single_flight (w : World) :
  single_flight w ->
  let r := Duplex.demand _destroy read w in
  single_flight (world r) /\
  List.length (filter is_read (events r)) + reads_in_flight w <= 1 /\
  (filter is_read (events r) <> [] ->
   reading (self w) = false /\ reads_in_flight w = 0).
Proof.
  intros [Hle Hzero]. cbv zeta. unfold Duplex.demand.
  rewrite bind_this.
  destruct (reading (self w)) eqn:Hrd; cbn [orb].
  - simpl. repeat split; [exact Hle | | lia | | ]; try congruence.
  - specialize (Hzero eq_refl).
    destruct (ended (self w) || destroyed (self w)).
    + simpl. repeat split; try lia; congruence.
    + rewrite bind_update. unfold try_catch.
      set (w1 := with_self (set_reading true (self w)) w).
      assert (Hn1 : reads_in_flight w1 = 0) by exact Hzero.
      assert (Hr1 : reading (self w1) = true) by reflexivity.
      destruct (cfReader (self w1)) as [rd | ] eqn:Hcr.
      * rewrite (read_with_reader w1 rd Hcr). cbn [completion world events].
        unfold single_flight, reads_in_flight in *. cbn [pending self].
        rewrite filter_app, length_app, Hn1, Hr1, Hzero. simpl.
        repeat split; try lia; congruence.
      * rewrite (read_without_reader w1 Hcr).
        cbn [completion world events app].
        destruct (stable_single_flight
                    (Duplex.destroy _destroy
                       (Some (TypeError "this.#cfReader is null"))) w1
                    (fun b n => destroy_keeps_view b n _))
          as (Hr' & Hn' & He').
        unfold single_flight. rewrite Hn', Hn1, Hzero, He'. simpl.
        repeat split; try lia; congruence.
Qed.

Lemma stable_step {A} (m : M A) (w : World) :
  (forall b n, respects (view_is b n) not_read m) ->
  single_flight w ->
  single_flight (world (m w)) /\
  List.length (filter is_read (events (m w))) + reads_in_flight w <= 1 /\
  filter is_read (events (m w)) = [].
Proof.
  intros Hm [Hle Hzero].
  destruct (stable_single_flight m w Hm) as (Hr & Hn & He).
  unfold single_flight. rewrite Hr, Hn, He. simpl.
  repeat split; assumption.
Qed.

(** Settling a promise that is not a read leaves the reads in flight as
    they are; settling a read takes one away. *)
Lemma settled_in_flight (w : World) (k : nat) (p : Pending) :
  nth_error (pending w) k = Some p ->
  reads_in_flight w =
    reads_in_flight {| self := self w; pending := remove_nth k (pending w);
                       fresh := fresh w |}
    + (if is_pending_read p then 1 else 0).
Proof.
  intros Hk. unfold reads_in_flight; simpl.
  apply filter_remove_nth, Hk.
Qed.

Lemma step_single_flight (i : Input) (w : World) :
  single_flight w ->
  let r := step i w in
  single_flight (world r) /\
  List.length (filter is_read (events r)) + reads_in_flight w <= 1 /\
  (filter is_read (events r) <> [] ->
   i = Demand /\ reading (self w) = false /\ reads_in_flight w = 0).
Proof.
  intros Hw. cbv zeta.
  assert (Hstable : forall m : M unit,
             (forall b n, respects (view_is b n) not_read m) ->
             single_flight (world (m w)) /\
             List.length (filter is_read (events (m w))) + reads_in_flight w <= 1 /\
             (filter is_read (events (m w)) <> [] ->
              i = Demand /\ reading (self w) = false /\ reads_in_flight w = 0)).
  { intros m Hm. destruct (stable_step m w Hm Hw) as (H1 & H2 & H3).
    split; [exact H1 | split; [exact H2 | ]].
    intros Hne. rewrite H3 in Hne. congruence. }
  destruct i as [p h l f | op f | d en cb | ch | er | | k st | k st];
    cbn [step].
  - apply Hstable. intros b n. apply connect_keeps_view.
  - apply Hstable. intros b n. apply startTls_keeps_view.
  - apply Hstable. intros b n. apply write_keeps_view.
  - apply Hstable. intros b n. apply end_keeps_view.
  - apply Hstable. intros b n. apply destroy_keeps_view.
  - destruct (demand_single_flight w Hw) as (H1 & H2 & H3).
    split; [exact H1 | split; [exact H2 | ]].
    intros Hne. destruct (H3 Hne) as [Hrd Hz]. repeat split; assumption.
  - rewrite bind_lookup_pending.
    destruct (nth_error (pending w) k) as [p | ] eqn:Hk;
      [ | apply Hstable; intros b n; apply respects_ret].
    pose proof (settled_in_flight w k _ Hk) as Hn.
    set (w1 := {| self := self w; pending := remove_nth k (pending w);
                  fresh := fresh w |}) in *.
    assert (Hcase : forall m : M unit,
               is_pending_read p = false ->
               (forall b n, respects (view_is b n) not_read m) ->
               single_flight (world ((settled k ;; m) w)) /\
               List.length (filter is_read (events ((settled k ;; m) w)))
                 + reads_in_flight w <= 1 /\
               (filter is_read (events ((settled k ;; m) w)) <> [] ->
                Settles k st = Demand /\ reading (self w) = false /\
                reads_in_flight w = 0)).
    { intros m Hp Hm. rewrite bind_settled. fold w1.
      rewrite Hp, Nat.add_0_r in Hn.
      assert (Hw1 : single_flight w1).
      { destruct Hw as [Hle Hzero]. split; rewrite <- Hn; assumption. }
      destruct (stable_step m w1 Hm Hw1) as (H1 & H2 & H3).
      rewrite Hn. split; [exact H1 | split; [exact H2 | ]].
      intros Hne. rewrite H3 in Hne. congruence. }
    destruct p as [s | s | r | wr cb | s er].
    + apply Hcase; [reflexivity | intros; apply opened_settled_keeps_view].
    + apply Hcase; [reflexivity | intros; apply closed_settled_keeps_view].
    + apply Hstable; intros b n; apply respects_ret.
    + apply Hcase; [reflexivity | intros; apply write_settled_keeps_view].
    + apply Hcase; [reflexivity | intros; apply close_settled_keeps_view].
  - rewrite bind_lookup_pending.
    destruct (nth_error (pending w) k) as [[s | s | r | wr cb | s er] | ]
      eqn:Hk; try (apply Hstable; intros b n; apply respects_ret).
    pose proof (settled_in_flight w k _ Hk) as Hn. cbn [is_pending_read] in Hn.
    rewrite bind_settled.
    set (w1 := {| self := self w; pending := remove_nth k (pending w);
                  fresh := fresh w |}) in *.
    destruct Hw as [Hle Hzero].
    assert (Hn1 : reads_in_flight w1 = 0) by lia.
    destruct (read_settled_keeps_in_flight 0 st w1 Hn1) as [Hkeep Hev].
    unfold in_flight_is in Hkeep.
    apply not_read_filter in Hev.
    unfold single_flight. rewrite Hkeep, Hev. simpl.
    split; [split; [lia | reflexivity] | split; [lia | ]].
    intros Hne. congruence.
Qed.

Lemma run_single_flight (ins : list Input) (w : World) :
  single_flight w -> single_flight (run ins w).
Proof.
  revert w. induction ins as [ | i ins IH]; intros w Hw; simpl.
  - exact Hw.
  - apply IH. apply (step_single_flight i w Hw).
Qed.

(** C7. In every execution at most one read is in flight.  A step issues
    a read only if it is demand from the consumer arriving when no read is
    in flight (the previous one, if any, has settled and its result has
    been pushed), and it issues one read only. *)
Theorem single_read_in_flight (ssl : bool) (ins : list Input) :
  let w := run ins (init ssl) in
  reads_in_flight w <= 1 /\
  forall i : Input,
    let r := step i w in
    List.length (filter is_read (events r)) + reads_in_flight w <= 1 /\
    (filter is_read (events r) <> [] ->
     i = Demand /\ reading (self w) = false /\ reads_in_flight w = 0) /\
    reads_in_flight (world r) <= 1.
Proof.
  cbv zeta.
  assert (Hw : single_flight (run ins (init ssl))).
  { apply run_single_flight.
    unfold single_flight, reads_in_flight; simpl.
    split; [lia | reflexivity]. }
  split; [apply Hw | ].
  intros i. destruct (step_single_flight i _ Hw) as ([H1 _] & H2 & H3).
  split; [exact H2 | split; [exact H3 | exact H1]].
Qed.

(** ** Write path *)

(** C8. A chunk of length zero completes at once: the callback is invoked
    with no error, nothing is sent to the writer, no promise is left
    pending and the object is unchanged. *)
Theorem write_empty_chunk (w : World) (data : Data) (encoding : Encoding)
    (callback : Callback) (Hlen : data_length data = 0) :
  write data encoding (Some callback) w =
    {| completion := Normal tt; world := w;
       events := [Invoke callback None] |}.
Proof.
  unfold write. rewrite Hlen. reflexivity.
Qed.

Lemma write_empty_chunk_witness :
  data_length (Buf []) = 0 /\
  write (Buf []) "utf-8" (Some 3) (init false) =
    {| completion := Normal tt; world := init false;
       events := [Invoke 3 None] |}.
Proof.
  split; [reflexivity | apply (write_empty_chunk (init false)); reflexivity].
Defined.

(** With the default callback the call has no effect at all. *)
Lemma empty_chunk_default_callback (w : World) (data : Data)
    (encoding : Encoding) :
  data_length data = 0 -> write data encoding None w = ret tt w.
Proof.
  intros Hlen. unfold write. rewrite Hlen. reflexivity.
Qed.

(** ** Teardown *)

(** C10. [destroy] on an adapter that holds a socket asks the platform to
    close it and waits.  If [close()] rejects, the completion callback
    receives the rejection reason, whatever error [destroy] was given; it
    receives the error given to [destroy] only when [close()] fulfils.
    With the callback of the base class the error emitted before ['close']
    is therefore the rejection reason. *)
Theorem destroy_close_rejection_wins (w : World) (sock : SocketId)
    (error : option JsError) (reason : JsError)
    (Hs : cfSocket (self w) = Some sock) :
  (forall cb : option JsError -> M unit,
      _destroy error cb w =
        {| completion := Normal tt;
           world := {| self := self w;
                       pending := pending w ++ [PClose sock error];
                       fresh := fresh w |};
           events := [Platform (SockClose sock)] |}) /\
  (forall (cb : option JsError -> M unit) (w' : World),
      close_settled cb error (Rejected reason) w' = cb (Some reason) w') /\
  (forall (cb : option JsError -> M unit) (w' : World) (v : unit),
      completion (cb error w') = Normal tt ->
      close_settled cb error (Fulfilled v) w' = cb error w') /\
  (forall w' : World,
      closed (self w') = false ->
      events (close_settled Duplex.onDestroy error (Rejected reason) w') =
        [Emit (NError reason); Emit NClose] /\
      events (close_settled Duplex.onDestroy error (Fulfilled tt) w') =
        match error with
        | Some e => [Emit (NError e); Emit NClose]
        | None => [Emit NClose]
        end).
Proof.
  destruct w as [o ps n]; simpl in Hs.
  split; [ | split; [ | split]].
  - intros cb.
    cbv [_destroy bind this platform observe await completion world events self
         pending fresh].
    rewrite Hs. reflexivity.
  - reflexivity.
  - intros cb w' v Hn. unfold close_settled, try_catch. rewrite Hn.
    destruct (cb error w'); reflexivity.
  - intros [o' ps' n'] Hc; simpl in Hc.
    cbv [close_settled Duplex.onDestroy try_catch bind this update emit observe
         ret completion world events self].
    rewrite Hc. destruct error; split; reflexivity.
Qed.

Lemma destroy_close_rejection_wins_witness :
  cfSocket (self opened_world) = Some 0 /\
  let w1 := world (destroy (Some (PlatformError 1)) opened_world) in
  pending w1 = pending opened_world ++ [PClose 0 (Some (PlatformError 1))] /\
  events (close_settled Duplex.onDestroy (Some (PlatformError 1))
            (Rejected (PlatformError 2)) w1) =
    [Emit (NError (PlatformError 2)); Emit NClose].
Proof.
  destruct (destroy_close_rejection_wins opened_world 0
              (Some (PlatformError 1)) (PlatformError 2) eq_refl)
    as (_ & _ & _ & Hcb).
  split; [reflexivity | split; [reflexivity | ]].
  exact (proj1 (Hcb (world (destroy (Some (PlatformError 1)) opened_world))
                eq_refl)).
Defined.

(** * Further properties *)

(** ** Invariants of executions *)

Lemma step_respects (P : World -> Prop) (E : Event -> Prop) :
  (forall p h l f, respects P E (connect p h l f)) ->
  (forall o f, respects P E (startTls o f)) ->
  (forall d e c, respects P E (write d e c)) ->
  (forall ch, respects P E (end_ ch)) ->
  (forall er, respects P E (destroy er)) ->
  respects P E (Duplex.demand _destroy read) ->
  (forall k, respects P E (settled k)) ->
  (forall o, respects P E (opened_settled o)) ->
  (forall o, respects P E (closed_settled o)) ->
  (forall c o, respects P E (write_settled c o)) ->
  (forall er o, respects P E (close_settled Duplex.onDestroy er o)) ->
  (forall o, respects P E (read_settled o)) ->
  forall i, respects P E (step i).
Proof.
  intros Hco Hst Hwr Hen Hde Hdm Hse Hop Hcl Hws Hcs Hrs i.
  destruct i as [p h l f | op f | d en cb | ch | er | | k st | k st];
    cbn [step]; auto.
  - apply respects_bind; [apply respects_lookup_pending | ].
    intros [[s | s | r | wr cb | s er] | ];
      try apply respects_ret; apply respects_bind; auto.
  - apply respects_bind; [apply respects_lookup_pending | ].
    intros [[s | s | r | wr cb | s er] | ];
      try apply respects_ret; apply respects_bind; auto.
Qed.

Lemma run_respects (P : World -> Prop) (E : Event -> Prop) :
  (forall i, respects P E (step i)) ->
  forall ins w, P w -> P (run ins w) /\ Forall E (trace ins w).
Proof.
  intros Hstep ins. induction ins as [ | i ins IH]; intros w Hw; simpl.
  - split; [exact Hw | constructor].
  - destruct (Hstep i w Hw) as [Hp He].
    destruct (IH _ Hp) as [Hp' He'].
    split; [exact Hp' | apply Forall_app; split; assumption].
Qed.

(** A property of the last world of a computation passes through
    [try]/[catch] when the handler keeps it. *)
Lemma try_catch_world {A} (Q : World -> Prop) (body : M A)
    (handler : JsError -> M A) (w : World) :
  Q (world (body w)) ->
  (forall e w', Q w' -> Q (world (handler e w'))) ->
  Q (world (try_catch body handler w)).
Proof.
  intros Hb Hh. unfold try_catch.
  destruct (completion (body w)); simpl; auto.
Qed.

Lemma all_events (t : list Event) : Forall any_event t.
Proof. apply Forall_forall. intros; exact I. Qed.

(** *** The handles are those of the socket *)

Ltac keeps_coherent :=
  intros [? ? ?] ?; unfold coherent in *; simpl in *; assumption.

Lemma forget_coherent : respects coherent any_event forget.
Proof.
  intros w _. split; [ | apply all_events].
  rewrite forget_eq. unfold coherent; simpl. split; reflexivity.
Qed.

(** The methods, with [forget] taken as one step. *)
Ltac unfold_methods_to_forget :=
  cbv beta zeta delta
    [write end_ destroy push read
     read_settled write_settled closed_settled opened_settled close_settled
     _destroy
     Duplex.demand Duplex.destroy Duplex.push Duplex.onDestroy Duplex.end_
     invoke when emit platform].

Ltac respect_coherent :=
  repeat first
    [ match goal with
      | |- respects _ _ forget => apply forget_coherent
      end
    | apply respects_ret
    | apply respects_throw
    | apply respects_this
    | apply respects_bind; [ | intro ]
    | apply respects_try_catch; [ | intro ]
    | apply respects_observe; exact I
    | match goal with
      | |- respects _ _ (match ?x with _ => _ end) => destruct x
      | |- respects _ _ (if ?x then _ else _) => destruct x
      end
    | apply respects_quiet; [ reflexivity | solve [keeps_coherent] ] ].

Lemma connect_coherent p h l f : respects coherent any_event (connect p h l f).
Proof.
  intros [o ps n] Hw. split; [ | apply all_events].
  unfold coherent in *; simpl in Hw.
  cbv [connect try_catch bind this update ret throw platform emit observe
       new_socket _addClosedHandler await completion world events self
       pending fresh].
  destruct f as [e | ], l as [li | ]; simpl;
    first [exact Hw | split; reflexivity].
Qed.

Lemma startTls_coherent op f : respects coherent any_event (startTls op f).
Proof.
  intros [o ps n] Hw. split; [ | apply all_events].
  unfold coherent in *; simpl in Hw.
  cbv [startTls bind this update ret throw platform emit observe new_socket
       _addClosedHandler await completion world events self pending fresh].
  destruct (upgraded o); [exact Hw | ].
  destruct (cfSocket o) as [s | ] eqn:Hs; destruct Hw as [Hr Hwr];
    rewrite Hr, Hwr; destruct f as [e | ]; simpl;
    rewrite ?Hs, ?Hr, ?Hwr; split; reflexivity.
Qed.

Lemma step_coherent (i : Input) : respects coherent any_event (step i).
Proof.
  revert i. apply step_respects.
  - apply connect_coherent.
  - apply startTls_coherent.
  - intros; unfold_methods_to_forget; respect_coherent.
  - intros [[d e] | ]; unfold_methods_to_forget; respect_coherent.
  - intros; unfold_methods_to_forget; respect_coherent.
  - unfold_methods_to_forget; respect_coherent.
  - intros; apply respects_quiet; [reflexivity | keeps_coherent].
  - intros; unfold_methods_to_forget; respect_coherent.
  - intros; unfold_methods_to_forget; respect_coherent.
  - intros; unfold_methods_to_forget; respect_coherent.
  - intros; unfold_methods_to_forget; respect_coherent.
  - intros; unfold_methods_to_forget; respect_coherent.
Qed.

(** X1. In every execution the three fields go together: when a socket is
    held, the reader and the writer held are the ones obtained from that
    socket; when none is held, no reader and no writer are held either. *)
Theorem handles_belong_to_socket (ssl : bool) (ins : list Input) :
  coherent (run ins (init ssl)).
Proof.
  apply (run_respects coherent any_event step_coherent ins (init ssl)).
  unfold coherent; simpl. split; reflexivity.
Qed.

(** *** The two upgrade flags *)

Ltac keeps_flags :=
  intros [? ? ?] ?; unfold exclusive_flags, ssl_is in *; simpl in *;
  assumption.

Ltac respect_flags := respect keeps_flags ltac:(exact I).

Lemma startTls_exclusive op f :
  respects exclusive_flags any_event (startTls op f).
Proof.
  intros w Hw. split; [ | apply all_events].
  unfold exclusive_flags in *. unfold startTls. rewrite bind_this.
  destruct (upgraded (self w)) eqn:Hup;
    [simpl; intros _; apply Hw; reflexivity | ].
  rewrite bind_update.
  assert (Hkeep : respects
            (fun w' => upgraded (self w') = false) any_event
            (match cfWriter (self w) with
             | Some wr => platform (ReleaseWriter wr)
             | None => ret tt
             end ;;
             match cfReader (self w) with
             | Some r => platform (ReleaseReader r)
             | None => ret tt
             end ;;
             match cfSocket (self w) with
             | None => throw (TypeError "this.#cfSocket is null")
             | Some old =>
                 platform (SockStartTls old op) ;;
                 new <- match f with
                        | Some e => throw e
                        | None => new_socket
                        end ;;
                 update (set_cfSocket (Some new)) ;;
                 platform (GetWriter new) ;;
                 update (set_cfWriter (Some (WriterOf new))) ;;
                 platform (GetReader new) ;;
                 update (set_cfReader (Some (ReaderOf new))) ;;
                 _addClosedHandler
             end)).
  { unfold_methods.
    respect ltac:(intros [? ? ?] ?; simpl in *; assumption) ltac:(exact I). }
  match goal with
  | |- upgraded (self (world (?m ?w1))) = true -> _ =>
      destruct (Hkeep w1 Hup) as [Hno _]
  end.
  rewrite Hno. discriminate.
Qed.

Lemma closed_settled_exclusive o :
  respects exclusive_flags any_event (closed_settled o).
Proof.
  intros w Hw. split; [ | apply all_events].
  destruct o as [v | e]; [ | exact Hw].
  unfold closed_settled. apply try_catch_world; [ | intros e w' Hw'; exact Hw'].
  rewrite bind_this.
  destruct (upgrading (self w)) eqn:Hug; cbn [negb].
  - unfold exclusive_flags. intros _. reflexivity.
  - assert (Hkeep : respects exclusive_flags any_event
                      (forget ;; destroy None)).
    { unfold_methods; respect_flags. }
    apply (Hkeep w Hw).
Qed.

Lemma step_exclusive (i : Input) :
  respects exclusive_flags any_event (step i).
Proof.
  revert i. apply step_respects.
  - intros; unfold_methods; respect_flags.
  - apply startTls_exclusive.
  - intros; unfold_methods; respect_flags.
  - intros [[d e] | ]; unfold_methods; respect_flags.
  - intros; unfold_methods; respect_flags.
  - unfold_methods; respect_flags.
  - intros; apply respects_quiet; [reflexivity | keeps_flags].
  - intros; unfold_methods; respect_flags.
  - apply closed_settled_exclusive.
  - intros; unfold_methods; respect_flags.
  - intros; unfold_methods; respect_flags.
  - intros; unfold_methods; respect_flags.
Qed.

(** X2. In no execution are [upgrading] and [upgraded] set together:
    [startTls] sets [upgrading] only when [upgraded] is clear, and the
    closed handler clears the one when it sets the other. *)
Theorem upgrade_flags_exclusive (ssl : bool) (ins : list Input) :
  let o := self (run ins (init ssl)) in
  upgrading o && upgraded o = false.
Proof.
  cbv zeta.
  assert (H : exclusive_flags (run ins (init ssl))).
  { apply (run_respects exclusive_flags any_event step_exclusive ins
             (init ssl)).
    unfold exclusive_flags; simpl. discriminate. }
  unfold exclusive_flags in H.
  destruct (upgraded (self (run ins (init ssl)))).
  - rewrite (H eq_refl). reflexivity.
  - apply andb_false_r.
Qed.

(** *** The options of the platform's connect *)

Lemma connect_mode p h l f (b : bool) :
  respects (ssl_is b) (connect_mode_ok b) (connect p h l f).
Proof.
  intros [o ps n] Hw. unfold ssl_is in *; simpl in Hw.
  cbv [connect try_catch bind this update ret throw platform emit observe
       new_socket _addClosedHandler await completion world events self
       pending fresh].
  destruct f as [e | ], l as [li | ]; simpl;
    (split; [exact Hw | ]);
    repeat (constructor; try exact I);
    simpl; rewrite Hw; split; reflexivity.
Qed.

Ltac other_than_connect := simpl; exact I.

Ltac respect_mode := respect keeps_flags other_than_connect.

Lemma step_mode (b : bool) (i : Input) :
  respects (ssl_is b) (connect_mode_ok b) (step i).
Proof.
  revert i. apply step_respects.
  - intros; apply connect_mode.
  - intros; unfold_methods; respect_mode.
  - intros; unfold_methods; respect_mode.
  - intros [[d e] | ]; unfold_methods; respect_mode.
  - intros; unfold_methods; respect_mode.
  - unfold_methods; respect_mode.
  - intros; apply respects_quiet; [reflexivity | keeps_flags].
  - intros; unfold_methods; respect_mode.
  - intros; unfold_methods; respect_mode.
  - intros; unfold_methods; respect_mode.
  - intros; unfold_methods; respect_mode.
  - intros; unfold_methods; respect_mode.
Qed.

(** X3. The [ssl] flag given to the constructor never changes, and every
    socket the adapter asks the platform for, in any execution, is asked
    with [allowHalfOpen: false] and with [secureTransport] "starttls" when
    the flag is set and "off" when it is not. *)
Theorem connect_options_follow_ssl (b : bool) (ins : list Input) :
  ssl (self (run ins (init b))) = b /\
  Forall (connect_mode_ok b) (trace ins (init b)).
Proof.
  apply (run_respects (ssl_is b) (connect_mode_ok b) (step_mode b) ins
           (init b)).
  reflexivity.
Qed.

(** ** The upgrade to TLS, step by step *)

Lemma startTls_eq (w : World) (s : SocketId) (rd : Reader) (wr : Writer)
    (options : TlsOptions) :
  upgraded (self w) = false ->
  cfSocket (self w) = Some s ->
  cfReader (self w) = Some rd ->
  cfWriter (self w) = Some wr ->
  startTls options None w =
    {| completion := Normal tt;
       world :=
         {| self := set_cfReader (Some (ReaderOf (fresh w)))
                      (set_cfWriter (Some (WriterOf (fresh w)))
                         (set_cfSocket (Some (fresh w))
                            (set_upgrading true (self w))));
            pending := pending w ++ [PClosed (fresh w)];
            fresh := S (fresh w) |};
       events := [Platform (ReleaseWriter wr); Platform (ReleaseReader rd);
                  Platform (SockStartTls s options);
                  Platform (GetWriter (fresh w));
                  Platform (GetReader (fresh w))] |}.
Proof.
  destruct w as [o ps n]; simpl; intros Hup Hs Hr Hw.
  cbv [startTls bind this update ret throw platform observe new_socket
       _addClosedHandler await completion world events self pending fresh].
  rewrite Hup, Hw, Hr, Hs. reflexivity.
Qed.

Lemma closed_settled_upgrading_eq (w : World) (v : unit) :
  upgrading (self w) = true ->
  closed_settled (Fulfilled v) w =
    {| completion := Normal tt;
       world := with_self (set_upgraded true (set_upgrading false (self w))) w;
       events := [] |}.
Proof.
  intros Hug. unfold closed_settled.
  rewrite try_catch_normal with (a := tt); rewrite bind_this, Hug;
    reflexivity.
Qed.

Lemma closed_settled_disconnect_eq (w : World) (v : unit) :
  upgrading (self w) = false ->
  destroyed (self w) = false ->
  closed (self w) = false ->
  closed_settled (Fulfilled v) w =
    {| completion := Normal tt;
       world := with_self
                  (set_closed true (set_destroyed true
                     (set_cfWriter None (set_cfReader None
                        (set_cfSocket None (self w)))))) w;
       events := [Emit NClose] |}.
Proof.
  intros Hug Hd Hc.
  assert (Hseq : (forget ;; destroy None) w =
                 {| completion := Normal tt;
                    world := with_self
                      (set_closed true (set_destroyed true
                         (set_cfWriter None (set_cfReader None
                            (set_cfSocket None (self w)))))) w;
                    events := [Emit NClose] |}).
  { unfold bind. rewrite forget_eq. cbn [completion world events].
    rewrite destroy_without_socket by (simpl; first [assumption | reflexivity]).
    reflexivity. }
  unfold closed_settled.
  rewrite try_catch_normal with (a := tt); rewrite bind_this, Hug;
    cbn [negb]; rewrite Hseq; reflexivity.
Qed.

Lemma nth_error_last {A} (l : list A) (x : A) :
  nth_error (l ++ [x]) (List.length l) = Some x.
Proof.
  rewrite nth_error_app2 by lia. rewrite Nat.sub_diag. reflexivity.
Qed.

Lemma remove_nth_last {A} (l : list A) (x : A) :
  remove_nth (List.length l) (l ++ [x]) = l.
Proof.
  induction l as [ | a l IH]; [reflexivity | ].
  cbn [List.length app]. rewrite remove_nth_cons, IH. reflexivity.
Qed.

Lemma settles_closed (w : World) (k : nat) (s : SocketId) (v : unit) :
  nth_error (pending w) k = Some (PClosed s) ->
  step (Settles k (Fulfilled v)) w =
    closed_settled (Fulfilled v)
      {| self := self w; pending := remove_nth k (pending w);
         fresh := fresh w |}.
Proof.
  intros Hk. unfold step. rewrite bind_lookup_pending, Hk.
  apply bind_settled.
Qed.

(** X4. An upgrade on an open connection.  [startTls] releases the writer
    and the reader of the plaintext socket, asks the platform for the TLS
    socket, takes its writer and reader and subscribes to its
    closed-signal.  When the closed-signal of the old socket then fulfils,
    nothing is emitted and the connection is open over the new socket: the
    next read goes to the new reader.  When the closed-signal fulfils once
    more, that is a disconnect: the adapter is closed with one ['close']. *)
Theorem upgrade_then_old_socket_closes (w : World) (s : SocketId)
    (options : TlsOptions) (v : unit)
    (Hs : cfSocket (self w) = Some s)
    (Hr : cfReader (self w) = Some (ReaderOf s))
    (Hw : cfWriter (self w) = Some (WriterOf s))
    (Hup : upgraded (self w) = false)
    (Hd : destroyed (self w) = false)
    (Hc : closed (self w) = false) :
  let new := fresh w in
  let r1 := startTls options None w in
  let r2 := closed_settled (Fulfilled v) (world r1) in
  let r3 := closed_settled (Fulfilled v) (world r2) in
  events r1 = [Platform (ReleaseWriter (WriterOf s));
               Platform (ReleaseReader (ReaderOf s));
               Platform (SockStartTls s options);
               Platform (GetWriter new); Platform (GetReader new)] /\
  pending (world r1) = pending w ++ [PClosed new] /\
  phase (self (world r1)) = Upgrading /\
  events r2 = [] /\
  phase (self (world r2)) = OpenTls /\
  cfSocket (self (world r2)) = Some new /\
  cfReader (self (world r2)) = Some (ReaderOf new) /\
  cfWriter (self (world r2)) = Some (WriterOf new) /\
  events (read (world r2)) = [Platform (ReaderRead (ReaderOf new))] /\
  events r3 = [Emit NClose] /\
  phase (self (world r3)) = Closed /\
  forgotten (world r3).
Proof.
  cbv zeta.
  rewrite (startTls_eq w s _ _ options Hup Hs Hr Hw).
  cbn [completion world events].
  rewrite closed_settled_upgrading_eq by reflexivity.
  cbn [completion world events].
  rewrite closed_settled_disconnect_eq by (simpl; first [assumption | reflexivity]).
  cbn [completion world events].
  rewrite read_with_reader with (reader := ReaderOf (fresh w)) by reflexivity.
  unfold phase, forgotten; simpl. rewrite Hd, Hc.
  repeat split.
Qed.

Lemma upgrade_then_old_socket_closes_witness :
  cfSocket (self opened_world) = Some 0 /\
  phase (self (world (closed_settled (Fulfilled tt)
                        (world (startTls tls_options None opened_world)))))
  = OpenTls.
Proof.
  destruct (upgrade_then_old_socket_closes opened_world 0 tls_options tt
              eq_refl eq_refl eq_refl eq_refl eq_refl eq_refl)
    as (_ & _ & _ & _ & Hph & _).
  split; [reflexivity | exact Hph].
Defined.

(** X5. The closed handler does not look at which socket has closed.  If,
    after [startTls], it is the closed-signal of the new socket that fulfils
    first, this passes for the end of the upgrade: nothing is emitted, the
    adapter is not destroyed and goes on holding the new socket with
    [upgraded] set.  The closed-signal of the old socket, when it fulfils
    afterwards, is then taken for a disconnect and closes the adapter. *)
Theorem new_socket_closing_first_ends_upgrade (w : World) (s : SocketId)
    (k : nat) (options : TlsOptions)
    (Hs : cfSocket (self w) = Some s)
    (Hr : cfReader (self w) = Some (ReaderOf s))
    (Hw : cfWriter (self w) = Some (WriterOf s))
    (Hup : upgraded (self w) = false)
    (Hd : destroyed (self w) = false)
    (Hc : closed (self w) = false)
    (Hk : nth_error (pending w) k = Some (PClosed s)) :
  let new := fresh w in
  let w1 := world (step (CallStartTls options None) w) in
  let r2 := step (Settles (List.length (pending w)) (Fulfilled tt)) w1 in
  let r3 := step (Settles k (Fulfilled tt)) (world r2) in
  nth_error (pending w1) (List.length (pending w)) = Some (PClosed new) /\
  events r2 = [] /\
  upgraded (self (world r2)) = true /\
  destroyed (self (world r2)) = false /\
  cfSocket (self (world r2)) = Some new /\
  phase (self (world r2)) = OpenTls /\
  pending (world r2) = pending w /\
  events r3 = [Emit NClose] /\
  forgotten (world r3) /\
  phase (self (world r3)) = Closed.
Proof.
  cbv zeta.
  change (step (CallStartTls options None) w) with (startTls options None w).
  rewrite (startTls_eq w s _ _ options Hup Hs Hr Hw).
  cbn [completion world events].
  split; [apply nth_error_last | ].
  rewrite settles_closed with (s := fresh w) by apply nth_error_last.
  cbn [self pending fresh]. rewrite remove_nth_last.
  rewrite closed_settled_upgrading_eq by reflexivity.
  cbn [completion world events].
  unfold with_self. cbn [self pending fresh].
  rewrite settles_closed with (s := s) by exact Hk.
  rewrite closed_settled_disconnect_eq by (simpl; first [assumption | reflexivity]).
  cbn [completion world events].
  unfold phase, forgotten; simpl. rewrite Hd, Hc.
  repeat split.
Qed.

Lemma new_socket_closing_first_ends_upgrade_witness :
  nth_error (pending opened_world) 0 = Some (PClosed 0) /\
  let w1 := world (step (CallStartTls tls_options None) opened_world) in
  let r2 := step (Settles 1 (Fulfilled tt)) w1 in
  events r2 = [] /\ cfSocket (self (world r2)) = Some 1 /\
  events (step (Settles 0 (Fulfilled tt)) (world r2)) = [Emit NClose].
Proof.
  destruct (new_socket_closing_first_ends_upgrade opened_world 0 0
              tls_options eq_refl eq_refl eq_refl eq_refl eq_refl eq_refl
              eq_refl)
    as (_ & Hev & _ & _ & Hs & _ & _ & Hev3 & _).
  split; [reflexivity | ].
  split; [exact Hev | split; [exact Hs | exact Hev3]].
Defined.

(** ** When the upgrade fails *)

(** X6. [startTls] on an adapter that holds no socket (before [connect],
    after the end of the stream or after a disconnect) raises a TypeError.
    It has set [upgrading] before it fails and leaves it set, so the next
    closed-signal that fulfils is taken for the end of an upgrade: it sets
    [upgraded] and does not destroy the adapter. *)
Theorem startTls_without_socket (w : World) (options : TlsOptions)
    (failure : option JsError) (v : unit)
    (Hup : upgraded (self w) = false)
    (Hf : forgotten w) :
  let r := startTls options failure w in
  (exists what, completion r = Thrown (TypeError what)) /\
  events r = [] /\
  world r = with_self (set_upgrading true (self w)) w /\
  let r' := closed_settled (Fulfilled v) (world r) in
  events r' = [] /\
  upgraded (self (world r')) = true /\
  destroyed (self (world r')) = destroyed (self w).
Proof.
  destruct Hf as (Hs & Hr & Hw). cbv zeta.
  assert (Heq : startTls options failure w =
                {| completion := Thrown (TypeError "this.#cfSocket is null");
                   world := with_self (set_upgrading true (self w)) w;
                   events := [] |}).
  { destruct w as [o ps n]; simpl in *.
    cbv [startTls bind this update ret throw platform observe completion world
         events self pending fresh with_self].
    rewrite Hup, Hw, Hr, Hs. reflexivity. }
  rewrite Heq. cbn [completion world events].
  rewrite closed_settled_upgrading_eq by reflexivity.
  repeat split. eexists; reflexivity.
Qed.

Lemma startTls_without_socket_witness :
  upgraded (self (init true)) = false /\
  forgotten (init true) /\
  upgrading (self (world (startTls tls_options None (init true)))) = true.
Proof.
  destruct (startTls_without_socket (init true) tls_options None tt eq_refl
              (conj eq_refl (conj eq_refl eq_refl)))
    as (_ & _ & Hw & _).
  split; [reflexivity | split; [repeat split | ]].
  rewrite Hw. reflexivity.
Defined.

(** X7. When the platform's [startTls] throws, the error goes to the caller
    of [startTls].  By then the locks of the writer and the reader have been
    released and [upgrading] is set; the socket, reader and writer fields
    still hold the old objects, no closed handler has been added, and a
    write that follows is handed to the released writer. *)
Theorem startTls_platform_failure (w : World) (s : SocketId) (rd : Reader)
    (wr : Writer) (options : TlsOptions) (e : JsError)
    (Hup : upgraded (self w) = false)
    (Hs : cfSocket (self w) = Some s)
    (Hr : cfReader (self w) = Some rd)
    (Hw : cfWriter (self w) = Some wr) :
  let r := startTls options (Some e) w in
  completion r = Thrown e /\
  events r = [Platform (ReleaseWriter wr); Platform (ReleaseReader rd);
              Platform (SockStartTls s options)] /\
  world r = with_self (set_upgrading true (self w)) w /\
  forall (data : Data) (encoding : Encoding) (callback : option Callback),
    data_length data <> 0 ->
    events (write data encoding callback (world r))
    = [Platform (WriterWrite wr (payload_of data encoding))].
Proof.
  cbv zeta.
  assert (Heq : startTls options (Some e) w =
                {| completion := Thrown e;
                   world := with_self (set_upgrading true (self w)) w;
                   events := [Platform (ReleaseWriter wr);
                              Platform (ReleaseReader rd);
                              Platform (SockStartTls s options)] |}).
  { destruct w as [o ps n]; simpl in *.
    cbv [startTls bind this update ret throw platform observe completion world
         events self pending fresh with_self].
    rewrite Hup, Hw, Hr, Hs. reflexivity. }
  rewrite Heq. cbn [completion world events].
  repeat split.
  intros data encoding callback Hlen.
  unfold write. apply Nat.eqb_neq in Hlen. rewrite Hlen.
  rewrite bind_this. cbn [with_self self]. simpl. rewrite Hw. reflexivity.
Qed.

Lemma startTls_platform_failure_witness :
  cfSocket (self opened_world) = Some 0 /\
  completion (startTls tls_options (Some (PlatformError 9)) opened_world)
  = Thrown (PlatformError 9).
Proof.
  destruct (startTls_platform_failure opened_world 0 (ReaderOf 0)
              (WriterOf 0) tls_options (PlatformError 9)
              eq_refl eq_refl eq_refl eq_refl) as (Hc & _).
  split; [reflexivity | exact Hc].
Defined.

(** ** Writing and reading without a handle *)

(** X8. A non-empty chunk written while no writer is held (before
    [connect], after the end of the stream or after a disconnect) raises a
    TypeError: nothing is sent, the completion callback is never invoked
    and no promise is left pending. *)
Theorem write_without_writer (w : World) (data : Data) (encoding : Encoding)
    (callback : option Callback)
    (Hlen : data_length data <> 0)
    (Hw : cfWriter (self w) = None) :
  let r := write data encoding callback w in
  (exists what, completion r = Thrown (TypeError what)) /\
  events r = [] /\
  world r = w.
Proof.
  cbv zeta. unfold write. apply Nat.eqb_neq in Hlen. rewrite Hlen.
  rewrite bind_this, Hw. simpl.
  repeat split. eexists; reflexivity.
Qed.

Lemma write_without_writer_witness :
  data_length (Str "Q") <> 0 /\
  cfWriter (self (init false)) = None /\
  events (write (Str "Q") "utf-8" (Some 3) (init false)) = [].
Proof.
  assert (Hlen : data_length (Str "Q") <> 0) by (simpl; lia).
  destruct (write_without_writer (init false) (Str "Q") "utf-8" (Some 3)
              Hlen eq_refl) as (_ & Hev & _).
  split; [exact Hlen | split; [reflexivity | exact Hev]].
Defined.

(** ** Teardown, continued *)

Lemma settles_close (w : World) (k : nat) (s : SocketId)
    (error : option JsError) (o : Settlement unit) :
  nth_error (pending w) k = Some (PClose s error) ->
  step (Settles k o) w =
    close_settled Duplex.onDestroy error o
      {| self := self w; pending := remove_nth k (pending w);
         fresh := fresh w |}.
Proof.
  intros Hk. unfold step. rewrite bind_lookup_pending, Hk.
  apply bind_settled.
Qed.

Lemma close_settled_eq (w : World) (error : option JsError)
    (o : Settlement unit) :
  closed (self w) = false ->
  close_settled Duplex.onDestroy error o w =
    {| completion := Normal tt;
       world := with_self (set_closed true (self w)) w;
       events := match o, error with
                 | Rejected e, _ | Fulfilled _, Some e =>
                     [Emit (NError e); Emit NClose]
                 | Fulfilled _, None => [Emit NClose]
                 end |}.
Proof.
  destruct w as [ob ps n]; simpl; intros Hc.
  destruct o as [v | e], error as [e' | ];
    cbv [close_settled Duplex.onDestroy try_catch bind this update emit
         observe ret completion world events self pending fresh with_self];
    rewrite Hc; reflexivity.
Qed.

(** X9. A read that rejects destroys the adapter with the reason: on an
    adapter that holds a socket, a close request is sent; when it settles
    by fulfilling, the reason of the read is emitted as ['error'], followed
    by ['close'].  From the rejection on, demand from the consumer issues no
    read. *)
Theorem read_rejection_is_fatal (w : World) (s : SocketId) (e : JsError)
    (Hs : cfSocket (self w) = Some s)
    (Hd : destroyed (self w) = false)
    (Hc : closed (self w) = false) :
  let r1 := read_settled (Rejected e) w in
  let r2 := step (Settles (List.length (pending w)) (Fulfilled tt))
              (world r1) in
  events r1 = [Platform (SockClose s)] /\
  pending (world r1) = pending w ++ [PClose s (Some e)] /\
  destroyed (self (world r1)) = true /\
  events (Duplex.demand _destroy read (world r1)) = [] /\
  events r2 = [Emit (NError e); Emit NClose] /\
  phase (self (world r2)) = Closed.
Proof.
  cbv zeta.
  change (read_settled (Rejected e) w) with (destroy (Some e) w).
  rewrite (destroy_with_socket (Some e) w s Hd Hs).
  cbn [completion world events].
  rewrite settles_close with (s := s) (error := Some e)
    by apply nth_error_last.
  cbn [self pending fresh]. rewrite remove_nth_last.
  rewrite close_settled_eq by exact Hc.
  cbn [completion world events].
  repeat split.
  unfold Duplex.demand. rewrite bind_this. simpl.
  rewrite !orb_true_r. reflexivity.
Qed.

Lemma read_rejection_is_fatal_witness :
  cfSocket (self opened_world) = Some 0 /\
  events (read_settled (Rejected (PlatformError 4)) opened_world)
  = [Platform (SockClose 0)].
Proof.
  destruct (read_rejection_is_fatal opened_world 0 (PlatformError 4)
              eq_refl eq_refl eq_refl) as (Hev & _).
  split; [reflexivity | exact Hev].
Defined.

Ltac keeps_holding :=
  intros [? ? ?] (? & ? & ?); unfold holding; simpl in *;
  repeat split; first [assumption | discriminate].

Ltac respect_holding := respect keeps_holding ltac:(exact I).

Lemma connect_holding p h l f : respects holding any_event (connect p h l f).
Proof. unfold_methods; respect_holding. Qed.

Lemma startTls_holding op f : respects holding any_event (startTls op f).
Proof. unfold_methods; respect_holding. Qed.

Lemma write_holding d e c : respects holding any_event (write d e c).
Proof. unfold_methods; respect_holding. Qed.

Lemma end_holding ch : respects holding any_event (end_ ch).
Proof. destruct ch as [[d e] | ]; unfold_methods; respect_holding. Qed.

Lemma destroy_holding er : respects holding any_event (destroy er).
Proof. unfold_methods; respect_holding. Qed.

Lemma demand_holding :
  respects holding any_event (Duplex.demand _destroy read).
Proof. unfold_methods; respect_holding. Qed.

Lemma opened_settled_holding o :
  respects holding any_event (opened_settled o).
Proof. unfold_methods; respect_holding. Qed.

Lemma write_settled_holding c o :
  respects holding any_event (write_settled c o).
Proof. unfold_methods; respect_holding. Qed.

Lemma close_settled_holding er o :
  respects holding any_event (close_settled Duplex.onDestroy er o).
Proof. unfold_methods; respect_holding. Qed.

Lemma chunk_holding value :
  respects holding any_event (read_settled (Fulfilled (Chunk value))).
Proof. unfold_methods; respect_holding. Qed.

Lemma read_rejected_holding e :
  respects holding any_event (read_settled (Rejected e)).
Proof. unfold_methods; respect_holding. Qed.

Lemma not_holding (w : World) :
  cfSocket (self w) = None \/ cfReader (self w) = None \/
  cfWriter (self w) = None ->
  ~ holding w.
Proof.
  intros [H | [H | H]] (Hs & Hr & Hw); congruence.
Qed.

(** Of all the inputs, only a closed-signal that fulfils while no upgrade
    is in progress and a read that settles with the end of the stream can
    set a field to null. *)
Lemma only_two_ways_to_forget (w : World) (i : Input) :
  holding w ->
  cfSocket (self (world (step i w))) = None \/
  cfReader (self (world (step i w))) = None \/
  cfWriter (self (world (step i w))) = None ->
  (exists k s v,
      i = Settles k (Fulfilled v) /\
      nth_error (pending w) k = Some (PClosed s) /\
      upgrading (self w) = false) \/
  (exists k r,
      i = ReadSettles k (Fulfilled Done) /\
      nth_error (pending w) k = Some (PRead r)).
Proof.
  intros Hw Hnull. apply not_holding in Hnull.
  assert (Hkeep : forall m : M unit,
             respects holding any_event m -> holding (world (m w))).
  { intros m Hm. apply (Hm w Hw). }
  assert (Hsettled : forall (k : nat) (m : M unit),
             respects holding any_event m ->
             holding (world ((settled k ;; m) w))).
  { intros k m Hm. rewrite bind_settled. apply Hm. exact Hw. }
  destruct i as [p h l f | op f | d en cb | ch | er | | k st | k st];
    cbn [step] in Hnull.
  - exfalso. apply Hnull, Hkeep, connect_holding.
  - exfalso. apply Hnull, Hkeep, startTls_holding.
  - exfalso. apply Hnull, Hkeep, write_holding.
  - exfalso. apply Hnull, Hkeep, end_holding.
  - exfalso. apply Hnull, Hkeep, destroy_holding.
  - exfalso. apply Hnull, Hkeep, demand_holding.
  - rewrite bind_lookup_pending in Hnull.
    destruct (nth_error (pending w) k) as [[s | s | r | wr cb | s er] | ]
      eqn:Hk.
    + exfalso. apply Hnull, Hsettled, opened_settled_holding.
    + destruct st as [v | e].
      * destruct (upgrading (self w)) eqn:Hug.
        -- exfalso. apply Hnull. rewrite bind_settled.
           rewrite closed_settled_upgrading_eq by exact Hug.
           exact Hw.
        -- left. exists k, s, v. repeat split; assumption.
      * exfalso. apply Hnull. rewrite bind_settled. exact Hw.
    + exfalso. apply Hnull. exact Hw.
    + exfalso. apply Hnull, Hsettled, write_settled_holding.
    + exfalso. apply Hnull, Hsettled, close_settled_holding.
    + exfalso. apply Hnull. exact Hw.
  - rewrite bind_lookup_pending in Hnull.
    destruct (nth_error (pending w) k) as [[s | s | r | wr cb | s er] | ]
      eqn:Hk; try (exfalso; apply Hnull; exact Hw).
    destruct st as [[value | ] | e].
    + exfalso. apply Hnull, Hsettled, chunk_holding.
    + right. exists k, r. split; [reflexivity | assumption].
    + exfalso. apply Hnull, Hsettled, read_rejected_holding.
Qed.

(** X10. [destroy] does not forget the socket.  On an adapter that holds
    one it asks for the close and marks the stream destroyed; when the close
    settles, whichever way, the stream is closed, and the socket, reader and
    writer fields still hold what they held.  They are set to null only by
    the closed handler and at the end of the stream: a step that leaves one
    of the three fields null where all were set is a closed-signal that
    fulfils while no upgrade is in progress, or a read that settles with the
    end of the stream. *)
Theorem destroy_keeps_the_socket (w : World) (s : SocketId)
    (error : option JsError) (o : Settlement unit)
    (Hs : cfSocket (self w) = Some s)
    (Hd : destroyed (self w) = false)
    (Hc : closed (self w) = false) :
  let r1 := destroy error w in
  let r2 := step (Settles (List.length (pending w)) o) (world r1) in
  phase (self (world r1)) = Closing /\
  phase (self (world r2)) = Closed /\
  cfSocket (self (world r2)) = Some s /\
  cfReader (self (world r2)) = cfReader (self w) /\
  cfWriter (self (world r2)) = cfWriter (self w) /\
  pending (world r2) = pending w /\
  forall (w' : World) (i : Input),
    holding w' ->
    cfSocket (self (world (step i w'))) = None \/
    cfReader (self (world (step i w'))) = None \/
    cfWriter (self (world (step i w'))) = None ->
    (exists k s' v,
        i = Settles k (Fulfilled v) /\
        nth_error (pending w') k = Some (PClosed s') /\
        upgrading (self w') = false) \/
    (exists k r,
        i = ReadSettles k (Fulfilled Done) /\
        nth_error (pending w') k = Some (PRead r)).
Proof.
  cbv zeta.
  rewrite (destroy_with_socket error w s Hd Hs).
  cbn [completion world events].
  rewrite settles_close with (s := s) (error := error)
    by apply nth_error_last.
  cbn [self pending fresh]. rewrite remove_nth_last.
  rewrite close_settled_eq by exact Hc.
  cbn [completion world events].
  unfold phase; simpl. rewrite Hc, Hs.
  repeat (split; [reflexivity | ]).
  exact only_two_ways_to_forget.
Qed.

Lemma destroy_keeps_the_socket_witness :
  cfSocket (self opened_world) = Some 0 /\
  cfSocket (self (world (step (Settles 1 (Rejected (PlatformError 2)))
                           (world (destroy None opened_world))))) = Some 0.
Proof.
  destruct (destroy_keeps_the_socket opened_world 0 None
              (Rejected (PlatformError 2)) eq_refl eq_refl eq_refl)
    as (_ & _ & Hs & _).
  split; [reflexivity | exact Hs].
Defined.

(** ** Ending *)

(** X11. A graceful end.  [end()] marks the writable side ended and asks
    the platform to close the socket held, once; it waits for nothing (the
    promise of the close is dropped), emits nothing, does not destroy the
    stream and keeps the socket, reader and writer.  It is the closed handler
    that finishes: when the closed-signal of the socket then fulfils, the
    fields are set to null and the adapter is closed with one ['close']. *)
Theorem end_requests_close (w : World) (s : SocketId) (k : nat)
    (Hs : cfSocket (self w) = Some s)
    (Hk : nth_error (pending w) k = Some (PClosed s))
    (Hug : upgrading (self w) = false)
    (Hd : destroyed (self w) = false)
    (Hc : closed (self w) = false) :
  let r1 := end_ None w in
  let r2 := step (Settles k (Fulfilled tt)) (world r1) in
  completion r1 = Normal tt /\
  events r1 = [Platform (SockClose s)] /\
  world r1 = with_self (set_writableEnded true (self w)) w /\
  events r2 = [Emit NClose] /\
  forgotten (world r2) /\
  phase (self (world r2)) = Closed.
Proof.
  cbv zeta.
  assert (Heq : end_ None w =
                {| completion := Normal tt;
                   world := with_self (set_writableEnded true (self w)) w;
                   events := [Platform (SockClose s)] |}).
  { destruct w as [o ps n]; simpl in Hs.
    cbv [end_ Duplex.end_ bind this update ret platform observe completion
         world events self with_self pending fresh].
    simpl. rewrite Hs. reflexivity. }
  rewrite Heq. cbn [completion world events].
  rewrite settles_closed with (s := s) by exact Hk.
  rewrite closed_settled_disconnect_eq
    by (simpl; first [assumption | reflexivity]).
  cbn [completion world events].
  unfold phase, forgotten; simpl.
  repeat split.
Qed.

Lemma end_requests_close_witness :
  cfSocket (self opened_world) = Some 0 /\
  nth_error (pending opened_world) 0 = Some (PClosed 0) /\
  events (end_ None opened_world) = [Platform (SockClose 0)] /\
  events (step (Settles 0 (Fulfilled tt)) (world (end_ None opened_world)))
  = [Emit NClose].
Proof.
  destruct (end_requests_close opened_world 0 0
              eq_refl eq_refl eq_refl eq_refl eq_refl)
    as (_ & Hev & _ & Hev2 & _).
  split; [reflexivity | split; [reflexivity | split]].
  - exact Hev.
  - exact Hev2.
Defined.

(** Without a socket [end()] asks the platform for nothing. *)
Lemma end_without_socket (w : World) :
  cfSocket (self w) = None -> events (end_ None w) = [].
Proof.
  destruct w as [o ps n]; simpl; intros Hs.
  cbv [end_ Duplex.end_ bind this update ret platform observe completion
       world events self].
  simpl. rewrite Hs. reflexivity.
Qed.

(** ** Data in both directions *)

Lemma run_app (ins1 ins2 : list Input) (w : World) :
  run (ins1 ++ ins2) w = run ins2 (run ins1 w).
Proof.
  revert w. induction ins1 as [ | i ins1 IH]; intros w; simpl;
    [reflexivity | apply IH].
Qed.

Lemma trace_app (ins1 ins2 : list Input) (w : World) :
  trace (ins1 ++ ins2) w = trace ins1 w ++ trace ins2 (run ins1 w).
Proof.
  revert w. induction ins1 as [ | i ins1 IH]; intros w; simpl;
    [reflexivity | rewrite IH, app_assoc; reflexivity].
Qed.

Lemma write_forwarded (w : World) (data : Data) (encoding : Encoding)
    (callback : option Callback) (wr : Writer) :
  data_length data <> 0 ->
  cfWriter (self w) = Some wr ->
  write data encoding callback w =
    {| completion := Normal tt;
       world := {| self := self w;
                   pending := pending w ++ [PWrite wr callback];
                   fresh := fresh w |};
       events := [Platform (WriterWrite wr (payload_of data encoding))] |}.
Proof.
  intros Hlen Hw. unfold write. apply Nat.eqb_neq in Hlen. rewrite Hlen.
  rewrite bind_this, Hw. reflexivity.
Qed.

(** X12. Writes are forwarded as they come: a series of non-empty chunks
    written to an adapter that holds a writer reaches that writer chunk by
    chunk, in the order of the calls, each as the buffer it is or as the
    buffer made of the string in the encoding given; nothing else happens,
    and one promise per chunk is left pending, in the same order. *)
Theorem writes_are_forwarded_in_order (w : World) (wr : Writer)
    (ds : list (Data * Encoding * option Callback))
    (Hw : cfWriter (self w) = Some wr)
    (Hlen : Forall (fun d => data_length (fst (fst d)) <> 0) ds) :
  trace (write_all ds) w
  = map (fun d => Platform (WriterWrite wr
                              (payload_of (fst (fst d)) (snd (fst d))))) ds /\
  run (write_all ds) w
  = {| self := self w;
       pending := pending w ++ map (fun d => PWrite wr (snd d)) ds;
       fresh := fresh w |}.
Proof.
  revert w Hw. induction Hlen as [ | [[data encoding] callback] ds Hd _ IH];
    intros w Hw.
  - simpl. rewrite app_nil_r. destruct w; split; reflexivity.
  - cbn [write_all map fst snd trace run step].
    rewrite (write_forwarded w data encoding callback wr Hd Hw).
    cbn [completion world events].
    match goal with
    | |- context [trace _ ?w1] => destruct (IH w1 Hw) as [Ht Hr]
    end.
    fold (write_all ds). rewrite Ht, Hr. cbn [self pending fresh].
    rewrite <- app_assoc. split; reflexivity.
Qed.

Lemma writes_are_forwarded_in_order_witness :
  cfWriter (self opened_world) = Some (WriterOf 0) /\
  trace (write_all [(Str "Q", "utf-8", Some 1); (Buf ["X"%byte], "utf-8", None)])
        opened_world
  = [Platform (WriterWrite (WriterOf 0) (BufferFrom "Q" "utf-8"));
     Platform (WriterWrite (WriterOf 0) (Bytes ["X"%byte]))].
Proof.
  assert (Hlen : Forall (fun d : Data * Encoding * option Callback =>
                           data_length (fst (fst d)) <> 0)
                   [(Str "Q", "utf-8", Some 1);
                    (Buf ["X"%byte], "utf-8", None)]).
  { repeat constructor; simpl; lia. }
  destruct (writes_are_forwarded_in_order opened_world (WriterOf 0) _
              eq_refl Hlen) as [Ht _].
  split; [reflexivity | exact Ht].
Defined.

Lemma demand_issues_read (w : World) (r : Reader) :
  cfReader (self w) = Some r ->
  reading (self w) = false ->
  ended (self w) = false ->
  destroyed (self w) = false ->
  Duplex.demand _destroy read w =
    {| completion := Normal tt;
       world := {| self := set_reading true (self w);
                   pending := pending w ++ [PRead r];
                   fresh := fresh w |};
       events := [Platform (ReaderRead r)] |}.
Proof.
  intros Hr Hrd He Hd. unfold Duplex.demand.
  rewrite bind_this, Hrd, He, Hd. cbn [orb].
  rewrite bind_update.
  rewrite try_catch_normal with (a := tt);
    rewrite (read_with_reader _ r) by exact Hr; reflexivity.
Qed.

Lemma settles_read (w : World) (k : nat) (r : Reader)
    (o : Settlement ReadResult) :
  nth_error (pending w) k = Some (PRead r) ->
  step (ReadSettles k o) w =
    read_settled o
      {| self := self w; pending := remove_nth k (pending w);
         fresh := fresh w |}.
Proof.
  intros Hk. unfold step. rewrite bind_lookup_pending, Hk.
  apply bind_settled.
Qed.

Lemma chunk_pushed (w : World) (value : list byte) :
  ended (self w) = false ->
  destroyed (self w) = false ->
  read_settled (Fulfilled (Chunk value)) w =
    {| completion := Normal tt;
       world := with_self (set_reading false (self w)) w;
       events := [Push (Some value)] |}.
Proof.
  destruct w as [o ps n]; simpl; intros He Hd.
  cbv [read_settled push Duplex.push try_catch bind this update observe ret
       completion world events self pending fresh with_self].
  rewrite He, Hd. reflexivity.
Qed.

Lemma end_pushed (w : World) :
  ended (self w) = false ->
  read_settled (Fulfilled Done) w =
    {| completion := Normal tt;
       world := with_self
                  (set_ended true (set_reading false
                     (set_cfWriter None (set_cfReader None
                        (set_cfSocket None (self w)))))) w;
       events := [Push None] |}.
Proof.
  destruct w as [o ps n]; simpl; intros He.
  cbv [read_settled push Duplex.push forget try_catch bind this update
       observe when ret completion world events self pending fresh
       with_self].
  simpl. rewrite He. reflexivity.
Qed.

Lemma reading_round_trip (o : CloudflareSocket) :
  reading o = false -> set_reading false (set_reading true o) = o.
Proof.
  destruct o; simpl; intros ->; reflexivity.
Qed.

(** One turn of the pump: demand, a read, a chunk.  The adapter is back
    where it was. *)
Lemma pump_one (w : World) (r : Reader) (value : list byte) :
  cfReader (self w) = Some r ->
  reading (self w) = false ->
  ended (self w) = false ->
  destroyed (self w) = false ->
  let ins := [Demand; ReadSettles (List.length (pending w))
                        (Fulfilled (Chunk value))] in
  trace ins w = [Platform (ReaderRead r); Push (Some value)] /\
  run ins w = w.
Proof.
  intros Hr Hrd He Hd. cbv zeta. cbn [trace run].
  change (step Demand w) with (Duplex.demand _destroy read w).
  rewrite (demand_issues_read w r Hr Hrd He Hd).
  cbn [completion world events].
  rewrite settles_read with (r := r) by apply nth_error_last.
  cbn [self pending fresh]. rewrite remove_nth_last.
  rewrite chunk_pushed by assumption.
  cbn [completion world events with_self self pending fresh].
  rewrite reading_round_trip by exact Hrd.
  split; [reflexivity | destruct w; reflexivity].
Qed.

(** X13. The read pump delivers what the reader yields, in order, without
    loss or repetition.  On an open adapter, when each demand of the
    consumer is answered by a read that yields the next chunk of a list and
    a last one by the end of the stream, the adapter issues one read per
    demand, pushes the chunks of the list one by one in their order and then
    [null] once; it ends with the socket, reader and writer forgotten. *)
Theorem chunks_are_pushed_in_order (w : World) (r : Reader)
    (chunks : list (list byte))
    (Hr : cfReader (self w) = Some r)
    (Hrd : reading (self w) = false)
    (He : ended (self w) = false)
    (Hd : destroyed (self w) = false) :
  let k := List.length (pending w) in
  let ins := pump k chunks ++ [Demand; ReadSettles k (Fulfilled Done)] in
  trace ins w
  = flat_map (fun v => [Platform (ReaderRead r); Push (Some v)]) chunks
    ++ [Platform (ReaderRead r); Push None] /\
  filter is_push (trace ins w) = map (fun v => Push (Some v)) chunks ++ [Push None] /\
  pending (run ins w) = pending w /\
  forgotten (run ins w) /\
  ended (self (run ins w)) = true.
Proof.
  cbv zeta.
  assert (Hpump : trace (pump (List.length (pending w)) chunks) w
                  = flat_map (fun v => [Platform (ReaderRead r); Push (Some v)])
                      chunks /\
                  run (pump (List.length (pending w)) chunks) w = w).
  { induction chunks as [ | v chunks [IHt IHr]]; [split; reflexivity | ].
    destruct (pump_one w r v Hr Hrd He Hd) as [Ht1 Hr1].
    change (pump (List.length (pending w)) (v :: chunks))
      with ([Demand; ReadSettles (List.length (pending w))
                       (Fulfilled (Chunk v))]
            ++ pump (List.length (pending w)) chunks).
    rewrite trace_app, run_app, Ht1, Hr1, IHt, IHr.
    split; reflexivity. }
  destruct Hpump as [Ht Hrun].
  assert (Hlast : trace [Demand; ReadSettles (List.length (pending w))
                                   (Fulfilled Done)] w
                  = [Platform (ReaderRead r); Push None] /\
                  run [Demand; ReadSettles (List.length (pending w))
                                 (Fulfilled Done)] w
                  = with_self
                      (set_ended true (set_reading false
                         (set_cfWriter None (set_cfReader None
                            (set_cfSocket None
                               (set_reading true (self w))))))) w).
  { cbn [trace run].
    change (step Demand w) with (Duplex.demand _destroy read w).
    rewrite (demand_issues_read w r Hr Hrd He Hd).
    cbn [completion world events].
    rewrite settles_read with (r := r) by apply nth_error_last.
    cbn [self pending fresh]. rewrite remove_nth_last.
    rewrite end_pushed by exact He.
    split; reflexivity. }
  destruct Hlast as [Ht2 Hr2].
  rewrite trace_app, run_app, Ht, Hrun, Ht2, Hr2.
  split; [reflexivity | ].
  split.
  - rewrite filter_app. simpl. f_equal.
    clear. induction chunks as [ | v chunks IH]; simpl;
      [reflexivity | rewrite IH; reflexivity].
  - repeat split.
Qed.

Lemma chunks_are_pushed_in_order_witness :
  cfReader (self opened_world) = Some (ReaderOf 0) /\
  filter is_push
    (trace (pump 1 [["a"%byte]; ["b"%byte; "c"%byte]]
            ++ [Demand; ReadSettles 1 (Fulfilled Done)]) opened_world)
  = [Push (Some ["a"%byte]); Push (Some ["b"%byte; "c"%byte]); Push None].
Proof.
  destruct (chunks_are_pushed_in_order opened_world (ReaderOf 0)
              [["a"%byte]; ["b"%byte; "c"%byte]]
              eq_refl eq_refl eq_refl eq_refl) as (_ & Hp & _).
  split; [reflexivity | exact Hp].
Defined.

(** ** Debug output *)







(** ** The test worker *)

(** X15. Whatever the client does, a route handler connects first and
    ends the client last, once; it sends its query in between exactly when
    the connection has succeeded. *)
Theorem worker_always_ends_client (text : string) (sc : Scenario) :
  fst (handle text sc)
  = match connect_fails sc with
    | Some _ => [ClientConnect; ClientEnd]
    | None => [ClientConnect; ClientQuery text; ClientEnd]
    end.
Proof.
  unfold handle, attempt. destruct (connect_fails sc); reflexivity.
Qed.

(** X16. The reply of a route handler.  When ending the client fails, the
    handler rejects with that failure whatever happened before.  Otherwise
    the status is 200 exactly when neither the connection nor the query
    failed, 400 with the name and message of the error exactly when the
    first failure is a [DatabaseError], 500 with name and message exactly
    when it is another [Error]; a thrown value that is no [Error] is thrown
    again. *)
Theorem worker_reply (text : string) (sc : Scenario) :
  let reply := snd (handle text sc) in
  (forall f, end_fails sc = Some f -> reply = Rejects f) /\
  (end_fails sc = None ->
   (status_of reply = Some 200 <-> first_failure sc = None) /\
   (forall name message,
       reply = Response 400 [("name", name); ("message", message)]
       <-> first_failure sc = Some (DatabaseError name message)) /\
   (forall name message,
       reply = Response 500 [("name", name); ("message", message)]
       <-> first_failure sc = Some (OtherError name message)) /\
   (forall f,
       reply = Rejects f
       <-> exists value, f = NotAnError value /\ first_failure sc = Some f)).
Proof.
  cbv zeta. unfold handle, attempt, first_failure.
  split.
  - intros f Hf. simpl. rewrite Hf. reflexivity.
  - intros Hend. simpl. rewrite Hend.
    destruct (connect_fails sc) as [[n m | n m | v] | ];
      [ | | | destruct (query_fails sc) as [[n m | n m | v] | ] ];
      simpl;
      repeat match goal with
             | |- _ /\ _ => split
             | |- _ <-> _ => split
             | |- forall _, _ => intro
             | H : exists _, _ |- _ => destruct H as (? & ? & ?)
             end;
      try discriminate; try congruence;
      match goal with
      | H : Rejects _ = Rejects _ |- exists _, _ =>
          injection H as <-; eexists; split; reflexivity
      end.
Qed.

(** ** Connecting again, and a closed-signal that rejects *)

Lemma connect_eq (w : World) (port : nat) (hostname : string) :
  connect port hostname None None w =
    {| completion := Normal tt;
       world :=
         {| self := set_cfReader (Some (ReaderOf (fresh w)))
                      (set_cfWriter (Some (WriterOf (fresh w)))
                         (set_cfSocket (Some (fresh w)) (self w)));
            pending := pending w ++ [PClosed (fresh w); POpened (fresh w)];
            fresh := S (fresh w) |};
       events := [Platform (SockConnect hostname port false
                              (if ssl (self w) then StartTls else Off));
                  Platform (GetWriter (fresh w));
                  Platform (GetReader (fresh w))] |}.
Proof.
  destruct w as [o ps n].
  cbv [connect try_catch bind this update ret throw platform emit observe
       new_socket _addClosedHandler await completion world events self
       pending fresh].
  simpl. rewrite <- app_assoc. reflexivity.
Qed.

(** X17. [connect] on an adapter that already holds a socket takes a new
    socket in its place: the old one is not asked to close, and its closed
    handler stays subscribed.  When the old socket closes afterwards, the
    handler cannot tell it from the new one: it forgets the new socket and
    closes the adapter. *)
Theorem reconnect_leaves_old_handler (w : World) (s : SocketId) (k : nat)
    (port : nat) (hostname : string)
    (Hk : nth_error (pending w) k = Some (PClosed s))
    (Hug : upgrading (self w) = false)
    (Hd : destroyed (self w) = false)
    (Hc : closed (self w) = false) :
  let new := fresh w in
  let r1 := step (CallConnect port hostname None None) w in
  let r2 := step (Settles k (Fulfilled tt)) (world r1) in
  filter is_close_request (events r1) = [] /\
  cfSocket (self (world r1)) = Some new /\
  pending (world r1) = pending w ++ [PClosed new; POpened new] /\
  events r2 = [Emit NClose] /\
  forgotten (world r2) /\
  phase (self (world r2)) = Closed.
Proof.
  cbv zeta.
  change (step (CallConnect port hostname None None) w)
    with (connect port hostname None None w).
  rewrite connect_eq. cbn [completion world events].
  assert (Hk' : nth_error
                  (pending w ++ [PClosed (fresh w); POpened (fresh w)]) k
                = Some (PClosed s)).
  { rewrite nth_error_app1; [exact Hk | ].
    apply nth_error_Some. rewrite Hk. discriminate. }
  rewrite settles_closed with (s := s) by exact Hk'.
  rewrite closed_settled_disconnect_eq
    by (simpl; first [assumption | reflexivity]).
  cbn [completion world events].
  unfold phase, forgotten; simpl.
  repeat split.
Qed.

Lemma reconnect_leaves_old_handler_witness :
  nth_error (pending opened_world) 0 = Some (PClosed 0) /\
  let r1 := step (CallConnect 6 "db2" None None) opened_world in
  cfSocket (self (world r1)) = Some 1 /\
  events (step (Settles 0 (Fulfilled tt)) (world r1)) = [Emit NClose].
Proof.
  destruct (reconnect_leaves_old_handler opened_world 0 0 6 "db2"
              eq_refl eq_refl eq_refl eq_refl)
    as (_ & Hs & _ & Hev & _).
  split; [reflexivity | split; [exact Hs | exact Hev]].
Defined.

(** X18. A closed-signal that rejects is only reported: the reason is
    emitted as ['error'] and nothing else is done.  The socket, the handles
    and the flags stay as they are, the adapter is not destroyed, and an
    upgrade in progress is not completed. *)
Theorem closed_rejection_is_only_reported (w : World) (k : nat)
    (s : SocketId) (e : JsError)
    (Hk : nth_error (pending w) k = Some (PClosed s)) :
  let r := step (Settles k (Rejected e)) w in
  completion r = Normal tt /\
  events r = [Emit (NError e)] /\
  self (world r) = self w /\
  pending (world r) = remove_nth k (pending w).
Proof.
  cbv zeta. unfold step. rewrite bind_lookup_pending, Hk, bind_settled.
  repeat split.
Qed.

Lemma closed_rejection_is_only_reported_witness :
  nth_error (pending upgrading_world) 1 = Some (PClosed 1) /\
  upgrading
    (self (world (step (Settles 1 (Rejected (PlatformError 3)))
                    upgrading_world))) = true.
Proof.
  destruct (closed_rejection_is_only_reported upgrading_world 1 1
              (PlatformError 3) eq_refl) as (_ & _ & Hself & _).
  split; [reflexivity | ].
  rewrite Hself. reflexivity.
Defined.

(** ** Where reads and writes go *)

(** What [this] yields satisfies what the property of the world says of the
    object. *)
Lemma respects_this_bind {A} (P : World -> Prop) (E : Event -> Prop)
    (f : CloudflareSocket -> M A) :
  (forall o, (exists w, P w /\ self w = o) -> respects P E (f o)) ->
  respects P E (o <- this ;; f o).
Proof.
  intros Hf w Hw. rewrite bind_this.
  apply (Hf (self w)); [exists w; split; [exact Hw | reflexivity] | exact Hw].
Qed.

Lemma respects_weaken {A} (P : World -> Prop) (E E' : Event -> Prop)
    (m : M A) (w : World) :
  (forall e, E e -> E' e) ->
  respects P E m -> P w -> Forall E' (events (m w)).
Proof.
  intros Himp Hm Hw. destruct (Hm w Hw) as [_ He].
  apply Forall_forall. intros e Hin.
  rewrite Forall_forall in He. apply Himp, He, Hin.
Qed.

Ltac keeps_handles :=
  intros [? ? ?] ?; unfold same_handles in *; simpl in *; assumption.

Ltac on_handle_held :=
  unfold same_handles, via_handles in *; simpl in *;
  repeat match goal with
         | H : exists _, _ |- _ => destruct H as (? & (? & ?) & ?)
         end;
  subst; solve [exact I | congruence].

Ltac respect_io :=
  repeat first
    [ match goal with
      | |- respects _ _ (bind this _) =>
          apply respects_this_bind; intros ? ?
      end
    | apply respects_ret
    | apply respects_throw
    | apply respects_bind; [ | intro ]
    | apply respects_try_catch; [ | intro ]
    | match goal with
      | |- respects _ _ (match ?x with _ => _ end) => destruct x eqn:?
      | |- respects _ _ (if ?x then _ else _) => destruct x eqn:?
      end
    | apply respects_observe; solve [on_handle_held]
    | apply respects_quiet; [ reflexivity | solve [keeps_handles] ] ].

Lemma write_io (w0 : World) data encoding callback :
  respects (same_handles w0) (via_handles (self w0))
    (write data encoding callback).
Proof. unfold_methods; respect_io. Qed.

Lemma end_io (w0 : World) chunk :
  respects (same_handles w0) (via_handles (self w0)) (end_ chunk).
Proof.
  destruct chunk as [[data encoding] | ]; unfold_methods; respect_io.
Qed.

Lemma demand_io (w0 : World) :
  respects (same_handles w0) (via_handles (self w0))
    (Duplex.demand _destroy read).
Proof. unfold_methods; respect_io. Qed.

Ltac no_io_here := simpl; exact I.

Ltac respect_no_io := respect trivial_world no_io_here.

Lemma step_io (i : Input) (w : World) :
  Forall (via_handles (self w)) (events (step i w)).
Proof.
  assert (Hweak : forall e, no_io e -> via_handles (self w) e).
  { intros [[ | | | | | | | | ] | | | | ]; simpl; intros H;
      solve [exact I | contradiction]. }
  assert (Hsame : same_handles w w) by (split; reflexivity).
  assert (Hquiet : forall m : M unit,
             respects (fun _ => True) no_io m ->
             Forall (via_handles (self w)) (events (m w))).
  { intros m Hm.
    apply (respects_weaken (fun _ => True) no_io (via_handles (self w)) m w
             Hweak Hm I). }
  destruct i as [p h l f | op f | d en cb | ch | er | | k st | k st];
    cbn [step].
  - apply Hquiet. unfold_methods; respect_no_io.
  - apply Hquiet. unfold_methods; respect_no_io.
  - apply (write_io w d en cb w Hsame).
  - apply (end_io w ch w Hsame).
  - apply Hquiet. unfold_methods; respect_no_io.
  - apply (demand_io w w Hsame).
  - apply Hquiet. apply respects_bind; [apply respects_lookup_pending | ].
    intros [[s | s | r | wr cb | s er] | ];
      unfold_methods; respect_no_io.
  - apply Hquiet. apply respects_bind; [apply respects_lookup_pending | ].
    intros [[s | s | r | wr cb | s er] | ];
      unfold_methods; respect_no_io.
Qed.

(** X19. In every execution, every read goes to the reader and every write
    to the writer of the socket the adapter holds when the step starts:
    the adapter never reads from or writes to a socket it has given up, and
    never without holding one. *)
Theorem io_goes_to_the_socket_held (ssl : bool) (ins : list Input)
    (i : Input) :
  let w := run ins (init ssl) in
  Forall (to_socket_held (self w)) (events (step i w)).
Proof.
  cbv zeta.
  assert (Hco : coherent (run ins (init ssl))).
  { apply (run_respects coherent any_event step_coherent ins (init ssl)).
    unfold coherent; simpl. split; reflexivity. }
  pose proof (step_io i (run ins (init ssl))) as Hio.
  apply Forall_forall. intros e Hin.
  rewrite Forall_forall in Hio. specialize (Hio e Hin).
  unfold coherent in Hco.
  destruct e as [[ | | | | | | | r | wr p] | | | | ]; simpl in *;
    try exact I;
    destruct (cfSocket (self (run ins (init ssl)))) as [s | ];
    destruct Hco as [Hr Hw];
    try congruence;
    exists s; (split; [reflexivity | congruence]).
Qed.

(** ** A write that fails *)

Lemma write_settled_by_invoke (callback : option Callback)
    (o : Settlement unit) :
  write_settled callback o = write_settled_by (invoke callback) o.
Proof. destruct o; reflexivity. Qed.

(** What [onwrite] does of a failure is what the continuation of the write
    does with the callback of the caller, followed by [destroy] with the
    reason: the executions of [run] have it as two steps. *)
Lemma onwrite_failure_in_two_steps (w : World) (k : nat) (wr : Writer)
    (callback : option Callback) (e : JsError) :
  nth_error (pending w) k = Some (PWrite wr callback) ->
  world (onwrite_settles k (Rejected e) w)
  = run [Settles k (Rejected e); CallDestroy (Some e)] w /\
  events (onwrite_settles k (Rejected e) w)
  = trace [Settles k (Rejected e); CallDestroy (Some e)] w.
Proof.
  intros Hk. cbn [run trace]. rewrite app_nil_r.
  unfold onwrite_settles, step.
  rewrite !bind_lookup_pending, Hk, !bind_settled.
  cbn [write_settled_by write_settled Duplex.onwrite].
  fold (destroy (Some e)).
  destruct callback as [cb | ]; split; reflexivity.
Qed.

(** C9. A non-empty chunk is handed to the writer and its promise is left
    pending.  When the promise rejects, the write path passes the reason to
    the callback it was given and does nothing else; when it fulfils, the
    callback of the write is invoked with no error.  The callback the
    stream gives the option is [onwrite]: on a failure the callback of the
    write is invoked with the reason and the adapter is then destroyed with
    it, so that a close request is sent and, when it settles, ['error'] and
    ['close'] are emitted. *)
Theorem write_failure_reaches_callback_then_destroys (w : World)
    (data : Data) (encoding : Encoding) (callback : Callback)
    (writer : Writer) (s : SocketId) (err : JsError)
    (Hlen : data_length data <> 0)
    (Hw : cfWriter (self w) = Some writer)
    (Hs : cfSocket (self w) = Some s)
    (Hd : destroyed (self w) = false)
    (Hc : closed (self w) = false) :
  let k := List.length (pending w) in
  let r1 := write data encoding (Some callback) w in
  let r2 := onwrite_settles k (Rejected err) (world r1) in
  let r3 := step (Settles k (Fulfilled tt)) (world r2) in
  r1 = {| completion := Normal tt;
          world := {| self := self w;
                      pending := pending w ++ [PWrite writer (Some callback)];
                      fresh := fresh w |};
          events := [Platform (WriterWrite writer
                                 (payload_of data encoding))] |} /\
  (forall (cb : option JsError -> M unit) (w' : World),
      write_settled_by cb (Rejected err) w' = cb (Some err) w') /\
  (forall (v : unit),
      onwrite_settles k (Fulfilled v) (world r1) =
        {| completion := Normal tt; world := w;
           events := [Invoke callback None] |}) /\
  completion r2 = Normal tt /\
  events r2 = [Invoke callback (Some err); Platform (SockClose s)] /\
  world r2 = {| self := set_destroyed true (self w);
                pending := pending w ++ [PClose s (Some err)];
                fresh := fresh w |} /\
  events r3 = [Emit (NError err); Emit NClose] /\
  phase (self (world r3)) = Closed.
Proof.
  cbv zeta.
  rewrite (write_forwarded w data encoding (Some callback) writer Hlen Hw).
  cbn [completion world events].
  split; [reflexivity | split; [reflexivity | ]].
  assert (Hk : nth_error (pending w ++ [PWrite writer (Some callback)])
                 (List.length (pending w))
               = Some (PWrite writer (Some callback)))
    by apply nth_error_last.
  assert (Hfail : onwrite_settles (List.length (pending w)) (Rejected err)
                    {| self := self w;
                       pending := pending w ++ [PWrite writer (Some callback)];
                       fresh := fresh w |}
                  = {| completion := Normal tt;
                       world := {| self := set_destroyed true (self w);
                                   pending := pending w ++ [PClose s (Some err)];
                                   fresh := fresh w |};
                       events := [Invoke callback (Some err);
                                  Platform (SockClose s)] |}).
  { unfold onwrite_settles.
    rewrite bind_lookup_pending. cbn [pending]. rewrite Hk, bind_settled.
    cbn [self pending fresh]. rewrite remove_nth_last.
    cbn [write_settled_by Duplex.onwrite invoke].
    fold (destroy (Some err)). unfold bind at 1.
    cbn [observe completion world events].
    rewrite (destroy_with_socket (Some err) _ s) by assumption.
    destruct w; reflexivity. }
  split.
  - intros v. unfold onwrite_settles.
    rewrite bind_lookup_pending. cbn [pending]. rewrite Hk, bind_settled.
    cbn [self pending fresh]. rewrite remove_nth_last.
    destruct w; reflexivity.
  - rewrite Hfail. cbn [completion world events].
    repeat (split; [reflexivity | ]).
    rewrite settles_close with (s := s) (error := Some err)
      by apply nth_error_last.
    cbn [self pending fresh]. rewrite remove_nth_last.
    rewrite close_settled_eq by exact Hc.
    cbn [completion world events].
    unfold phase; simpl. split; reflexivity.
Qed.

Lemma write_failure_reaches_callback_then_destroys_witness :
  data_length (Str "Q") <> 0 /\
  cfWriter (self opened_world) = Some (WriterOf 0) /\
  cfSocket (self opened_world) = Some 0 /\
  events (onwrite_settles 1 (Rejected (PlatformError 1))
            (world (write (Str "Q") "utf-8" (Some 3) opened_world)))
  = [Invoke 3 (Some (PlatformError 1)); Platform (SockClose 0)].
Proof.
  assert (Hlen : data_length (Str "Q") <> 0) by (simpl; lia).
  destruct (write_failure_reaches_callback_then_destroys opened_world
              (Str "Q") "utf-8" 3 (WriterOf 0) 0 (PlatformError 1)
              Hlen eq_refl eq_refl eq_refl eq_refl)
    as (_ & _ & _ & _ & Hev & _).
  split; [exact Hlen | split; [reflexivity | split; [reflexivity | ]]].
  exact Hev.
Defined.

(** The claim of the specification, that a failure of the writer is
    reported through the callback of the write only, without destroying the
    adapter or emitting an error, fails on an open connection: after the
    callback the adapter is destroyed, the socket is asked to close, and
    ['error'] and ['close'] follow. *)
Lemma write_failure_is_not_only_reported :
  let w1 := world (write (Str "Q") "utf-8" (Some 3) opened_world) in
  let r2 := onwrite_settles 1 (Rejected (PlatformError 1)) w1 in
  let r3 := step (Settles 1 (Fulfilled tt)) (world r2) in
  nth_error (pending w1) 1 = Some (PWrite (WriterOf 0) (Some 3)) /\
  destroyed (self w1) = false /\
  events r2 = [Invoke 3 (Some (PlatformError 1)); Platform (SockClose 0)] /\
  destroyed (self (world r2)) = true /\
  events r3 = [Emit (NError (PlatformError 1)); Emit NClose] /\
  ~ (destroyed (self (world r2)) = false /\
     notifications (events r2 ++ events r3) = []).
Proof.
  vm_compute. repeat split. intros [H _]. discriminate H.
Qed.
